(** * Memory Puzzle: the card, the board and the game loop of [main.cpp]

    A shallow embedding of the three classes of the program ([Card],
    [Board], [Game]) and of [main], followed by the properties of the
    specification that were checked against them.

    Conventions of the embedding:
    - a C++ [int] is a [Z] kept in the 32-bit two's-complement range; every
      arithmetic operation of the source is followed by [wrap];
    - a [char] is an [ascii], a [std::string] a [string];
    - [vector<Card>] is a [list Card] read with [!!] and updated with
      [alter]; an access outside the vector (undefined in C++) is the
      outcome [Undefined] of the game loop;
    - [std::cin] is the list of lines still to be read, [std::cout] the
      list of events written so far;
    - the random generator of [std::shuffle] is a function [draw] that
      gives the raw number drawn at each step. *)

From Stdlib Require Import ZArith Lia Ascii String List Permutation.
From stdpp Require Import base tactics option list strings.

Local Open Scope Z_scope.

(** ** Machine integers *)

Module Int.

Definition INT_MAX : Z := 2147483647.
Definition INT_MIN : Z := -2147483648.

Definition in_range (z : Z) : bool := (INT_MIN <=? z) && (z <=? INT_MAX).

(** Two's-complement reduction to 32 bits. *)
Definition wrap (z : Z) : Z := (z + 2147483648) mod 4294967296 - 2147483648.

Definition add (a b : Z) : Z := wrap (a + b).
Definition sub (a b : Z) : Z := wrap (a - b).
Definition mul (a b : Z) : Z := wrap (a * b).
(** [/] and [%] of C++ truncate towards zero. *)
Definition div (a b : Z) : Z := Z.quot a b.
Definition rem (a b : Z) : Z := Z.rem a b.

End Int.

(** ** Card (main.cpp, lines 12-26) *)

Record Card : Type := mkCard {
  value : ascii;
  revealed : bool;
  matched : bool
}.

(** [Card(char v = ' ')] *)
Definition Card_new (v : ascii) : Card :=
  {| value := v; revealed := false; matched := false |}.

Definition getValue (cd : Card) : ascii := value cd.
Definition isRevealed (cd : Card) : bool := revealed cd.
Definition isMatched (cd : Card) : bool := matched cd.

(** [void reveal() { if (!matched) revealed = true; }] *)
Definition reveal (cd : Card) : Card :=
  if negb (matched cd)
  then {| value := value cd; revealed := true; matched := matched cd |}
  else cd.

(** [void hide() { if (!matched) revealed = false; }] *)
Definition hide (cd : Card) : Card :=
  if negb (matched cd)
  then {| value := value cd; revealed := false; matched := matched cd |}
  else cd.

(** [void setMatched() { matched = true; revealed = true; }] *)
Definition setMatched (cd : Card) : Card :=
  {| value := value cd; revealed := true; matched := true |}.

(** The three mutators, as data, to speak about arbitrary call sequences. *)
Inductive card_op : Type := OpReveal | OpHide | OpSetMatched.

Definition apply_op (cd : Card) (o : card_op) : Card :=
  match o with
  | OpReveal => reveal cd
  | OpHide => hide cd
  | OpSetMatched => setMatched cd
  end.

Definition apply_ops (cd : Card) (os : list card_op) : Card :=
  foldl apply_op cd os.

(** ** Exceptions and results *)

Inductive exn : Type :=
| runtime_error (what : string)
| length_error (what : string).

Inductive result (A : Type) : Type :=
| Ok (a : A)
| Throw (e : exn).
Arguments Ok {A} a.
Arguments Throw {A} e.

(** ** Board (main.cpp, lines 28-113) *)

Record Board : Type := mkBoard {
  rows : Z;
  cols : Z;
  cards : list Card          (* row-major *)
}.

Definition pool : list ascii :=
  list_ascii_of_string
    ("ABCDEFGHIJKLMNOPQRSTUVWXYZ" +:+
     "abcdefghijklmnopqrstuvwxyz" +:+
     "0123456789" +:+
     "!@#$%^&*").

(** [pool[i]] *)
Definition pool_at (i : nat) : ascii := nth i pool " "%char.

(** First loop of [makeValues]:
    [for (i = 0; i < pool.size() && (int)vals.size() < pairCount; ++i)
       vals.push_back(pool[i]);]
    The recursion walks the part of the pool from index [i] on. *)
Fixpoint fill_from_pool (rest : list ascii) (pairCount : Z) (vals : list ascii)
  : list ascii :=
  match rest with
  | [] => vals
  | ch :: rest' =>
      if Z.of_nat (length vals) <? pairCount
      then fill_from_pool rest' pairCount (vals ++ [ch])
      else vals
  end.

(** Second loop of [makeValues]:
    [for (i = 0; (int)vals.size() < pairCount; ++i)
       vals.push_back(pool[i % pool.size()]);]
    [fuel] bounds the number of iterations; [pairCount] iterations always
    suffice (lemma [fill_cycling_spec]). *)
Fixpoint fill_cycling (fuel : nat) (i : nat) (pairCount : Z) (vals : list ascii)
  : list ascii :=
  match fuel with
  | O => vals
  | S fuel' =>
      if Z.of_nat (length vals) <? pairCount
      then fill_cycling fuel' (S i) pairCount
             (vals ++ [pool_at (i mod length pool)])
      else vals
  end.

Definition makeValues (pairCount : Z) : list ascii :=
  let vals := fill_from_pool pool pairCount [] in
  fill_cycling (Z.to_nat pairCount) 0 pairCount vals.

(** [for (i = 0; i < pairs; ++i) { deck.push_back(values[i]);
                                   deck.push_back(values[i]); }] *)
Definition makeDeck (pairs : Z) (values : list ascii) : list ascii :=
  foldl (fun deck i => deck ++ [nth i values " "%char; nth i values " "%char])
        [] (seq 0 (Z.to_nat pairs)).

(** A value and its twin, as the loop above lays them out. *)
Definition twice (v : ascii) : list ascii := [v; v].

(** [std::iter_swap] on two positions of a vector. *)
Definition swap {A : Type} (l : list A) (i j : nat) : list A :=
  match l !! i, l !! j with
  | Some x, Some y => <[i := y]> (<[j := x]> l)
  | _, _ => l
  end.

(** [std::shuffle(first, last, gen)]. The standard leaves the algorithm
    open; this is the loop of libstdc++,
    [for (i = 1; i < n; ++i) swap(a[i], a[uniform(0, i)])].
    [draw i] stands for the number the generator yields at step [i]; the
    uniform distribution on [0..i] reduces it. Nothing is assumed of
    [draw], so every sequence of such swaps is covered. *)
Definition shuffle {A : Type} (draw : nat -> nat) (l : list A) : list A :=
  foldl (fun acc i => swap acc i (draw i mod S i)) l
        (seq 1 (length l - 1)).

(** [vector::reserve(n)] with an [int] argument: a negative [int] converts
    to a [size_t] above [max_size()], and [reserve] throws
    [std::length_error] (its text below is the one of libstdc++). Memory
    is taken to be unbounded otherwise. *)
Definition reserve_throws (n : Z) : bool := n <? 0.

Definition invalid_config (r c : Z) : bool :=
  (r <=? 0) || (c <=? 0) || negb (Int.rem (Int.mul r c) 2 =? 0).

Definition config_message : string :=
  "Board must have positive rows/cols and an even number of cells.".

(** [Board(int r = 4, int c = 4)] *)
Definition Board_new (draw : nat -> nat) (r c : Z) : result Board :=
  if invalid_config r c then Throw (runtime_error config_message)
  else
    let pairs := Int.div (Int.mul r c) 2 in
    let values := makeValues pairs in
    if reserve_throws (Int.mul r c) then Throw (length_error "vector::reserve")
    else
      let deck := shuffle draw (makeDeck pairs values) in
      Ok {| rows := r; cols := c; cards := map Card_new deck |}.

Definition getRows (b : Board) : Z := rows b.
Definition getCols (b : Board) : Z := cols b.
Definition getSize (b : Board) : Z := Int.mul (rows b) (cols b).

(** [cards[r * cols + c]]: the position in the vector, when it is one. *)
Definition index (b : Board) (r c : Z) : Z :=
  Int.add (Int.mul r (cols b)) c.

Definition at_ (b : Board) (r c : Z) : option Card :=
  if index b r c <? 0 then None else cards b !! Z.to_nat (index b r c).

Definition update_at (f : Card -> Card) (b : Board) (r c : Z) : option Board :=
  match at_ b r c with
  | Some _ =>
      Some {| rows := rows b; cols := cols b;
              cards := alter f (Z.to_nat (index b r c)) (cards b) |}
  | None => None
  end.

Definition revealAt : Board -> Z -> Z -> option Board := update_at reveal.
Definition hideAt : Board -> Z -> Z -> option Board := update_at hide.
Definition matchAt : Board -> Z -> Z -> option Board := update_at setMatched.

(** [for (const Card& cd : cards) if (!cd.isMatched()) return false;
    return true;] *)
Fixpoint allMatched_cards (cs : list Card) : bool :=
  match cs with
  | [] => true
  | cd :: cs' => if negb (isMatched cd) then false else allMatched_cards cs'
  end.

Definition allMatched (b : Board) : bool := allMatched_cards (cards b).

(** ** Reading integers from a line ([stringstream >> int]) *)

(** [isspace] and [isdigit] in the "C" locale. *)
Definition isspace (ch : ascii) : bool :=
  let n := nat_of_ascii ch in
  Nat.eqb n 32 || (Nat.leb 9 n && Nat.leb n 13).

Definition isdigit (ch : ascii) : bool :=
  let n := nat_of_ascii ch in
  Nat.leb 48 n && Nat.leb n 57.

Definition digit_value (ch : ascii) : Z := Z.of_nat (nat_of_ascii ch) - 48.

Arguments isspace : simpl never.
Arguments isdigit : simpl never.

Fixpoint skipws (s : list ascii) : list ascii :=
  match s with
  | ch :: s' => if isspace ch then skipws s' else s
  | [] => []
  end.

(** The longest run of decimal digits, accumulated most significant first. *)
Fixpoint read_digits (s : list ascii) (acc : Z) : Z * list ascii :=
  match s with
  | ch :: s' =>
      if isdigit ch then read_digits s' (10 * acc + digit_value ch)
      else (acc, s)
  | [] => (acc, [])
  end.

Definition read_sign (s : list ascii) : bool * list ascii :=
  match s with
  | ch :: s' =>
      if Ascii.eqb ch "-" then (true, s')
      else if Ascii.eqb ch "+" then (false, s')
      else (false, s)
  | [] => (false, [])
  end.

Definition starts_with_digit (s : list ascii) : bool :=
  match s with
  | ch :: _ => isdigit ch
  | [] => false
  end.

(** [ss >> n] for an [int n]: leading white space is skipped, then an
    optional sign and the longest run of digits are consumed. The
    extraction fails (failbit) when there is no digit or when the number
    does not fit an [int]. On success the rest of the stream is returned. *)
Definition extract_int (s : list ascii) : option (Z * list ascii) :=
  let '(neg, s1) := read_sign (skipws s) in
  if starts_with_digit s1 then
    let '(n, s2) := read_digits s1 0 in
    let v := if neg : bool then - n else n in
    if Int.in_range v then Some (v, s2) else None
  else None.

(** [ss >> r >> c], converted to [bool]: both extractions succeed. What is
    left in the stream is dropped with the stream. *)
Definition extract_two (line : string) : option (Z * Z) :=
  match extract_int (list_ascii_of_string line) with
  | Some (r, s) =>
      match extract_int s with
      | Some (c, _) => Some (r, c)
      | None => None
      end
  | None => None
  end.

(** ** Console: input lines, output events *)

Inductive event : Type :=
| Print (text : string)             (* cout << text *)
| PrintMoves (n : Z)                (* cout << "Moves: " << moves *)
| PrintMatch (v : ascii)            (* cout << "MATCH! (" << v << ")" *)
| PrintTotal (n : Z)                (* cout << "Total moves: " << moves *)
| PrintSize (r c : Z)               (* cout << "Board: " << r << "x" << c *)
| PrintError (what : string)        (* cerr << "Error: " << e.what() *)
| Display (shown : list (list ascii))  (* board.display(true) *)
| GetLine (line : option string).   (* getline(cin, s); None at end of input *)

(** What a run of a piece of the program can come to: it returns, with the
    input still unread and the events it wrote; or it spins for ever in
    [readPos] once the input is exhausted ([getline] fails, [continue]);
    or it throws an exception, which leaves [play] and is caught in
    [main]; or it reads or writes outside the vector of cards; or the
    model runs out of fuel. *)
Inductive outcome (A : Type) : Type :=
| Returns (a : A) (rest : list string) (out : list event)
| Spins (out : list event)
| Throws (e : exn) (out : list event)
| Undefined (out : list event)
| OutOfFuel.
Arguments Returns {A} a rest out.
Arguments Spins {A} out.
Arguments Throws {A} e out.
Arguments Undefined {A} out.
Arguments OutOfFuel {A}.

Definition io (A : Type) : Type := list string -> outcome A.

Definition prepend {A : Type} (evs : list event) (o : outcome A) : outcome A :=
  match o with
  | Returns a rest out => Returns a rest (evs ++ out)
  | Spins out => Spins (evs ++ out)
  | Throws e out => Throws e (evs ++ out)
  | Undefined out => Undefined (evs ++ out)
  | OutOfFuel => OutOfFuel
  end.

Definition io_ret {A : Type} (a : A) : io A := fun inp => Returns a inp [].

Definition io_bind {A B : Type} (m : io A) (k : A -> io B) : io B :=
  fun inp =>
    match m inp with
    | Returns a rest out => prepend out (k a rest)
    | Spins out => Spins out
    | Throws e out => Throws e out
    | Undefined out => Undefined out
    | OutOfFuel => OutOfFuel
    end.

Notation "'do' x <- m ;; k" := (io_bind m (fun x => k))
  (at level 10, x name, m at level 99, k at level 200, only parsing).
Notation "'run' m ;; k" := (io_bind m (fun _ => k))
  (at level 10, m at level 99, k at level 200, only parsing).

Definition emit (e : event) : io unit := fun inp => Returns tt inp [e].

(** [getline(cin, s)] *)
Definition getline : io (option string) :=
  fun inp =>
    match inp with
    | line :: rest => Returns (Some line) rest [GetLine (Some line)]
    | [] => Returns None [] [GetLine None]
    end.

(** A vector access: undefined outside the vector. *)
Definition defined {A : Type} (o : option A) : io A :=
  fun inp =>
    match o with
    | Some a => Returns a inp []
    | None => Undefined []
    end.

(** ** Game (main.cpp, lines 115-197) *)

Record Game : Type := mkGame {
  board : Board;
  moves : Z
}.

(** [Game(int r = 4, int c = 4) : board(r, c), moves(0) {}] *)
Definition Game_new (draw : nat -> nat) (r c : Z) : result Game :=
  match Board_new draw r c with
  | Ok b => Ok {| board := b; moves := 0 |}
  | Throw e => Throw e
  end.

(** [r >= 0 && r < board.getRows() && c >= 0 && c < board.getCols()] *)
Definition valid (b : Board) (r c : Z) : bool :=
  (0 <=? r) && (r <? getRows b) && (0 <=? c) && (c <? getCols b).

Definition invalid_input_message : string :=
  "Invalid input. Use: <row> <col>  (e.g. 2 3)".

(** The test of [readPos] on one line; the position returned when it
    passes. *)
Definition accept_pos (b : Board) (line : string) : option (Z * Z) :=
  match extract_two line with
  | Some (r, c) =>
      if valid b (Int.sub r 1) (Int.sub c 1)
      then Some (Int.sub r 1, Int.sub c 1)
      else None
  | None => None
  end.

(** [readPos]: the loop [while (true)] reads lines until one passes the
    test. At the end of the input [getline] fails and the loop goes on
    for ever, writing the prompt. *)
Fixpoint readPos (b : Board) (prompt : string) (inp : list string)
  : outcome (Z * Z) :=
  match inp with
  | [] => Spins [Print prompt; GetLine None]
  | line :: rest =>
      match accept_pos b line with
      | Some p => Returns p rest [Print prompt; GetLine (Some line)]
      | None =>
          prepend [Print prompt; GetLine (Some line);
                   Print invalid_input_message]
                  (readPos b prompt rest)
      end
  end.

(** What [display] draws in a cell. *)
Definition glyph (cd : Card) : ascii :=
  if isMatched cd then getValue cd
  else if isRevealed cd then getValue cd
  else "*"%char.

(** [display]: the cells drawn, row by row (the text of the indices, of
    the borders and the spacing is left out). *)
Definition display_rows (b : Board) : list (list (option ascii)) :=
  map (fun r =>
         map (fun c => glyph <$> at_ b (Z.of_nat r) (Z.of_nat c))
             (seq 0 (Z.to_nat (cols b))))
      (seq 0 (Z.to_nat (rows b))).

(** [string(cols * 4, '-')], the border of lines 98 and 109: a negative
    [int] converts to a [size_t] above [max_size()], and the constructor
    of the string throws [std::length_error] (its text below is the one
    of libstdc++). *)
Definition border_throws (b : Board) : bool := Int.mul (cols b) 4 <? 0.

(** [display]. The first border is made (line 98) before any cell is
    read; when it throws, the header of column numbers written before
    it is not among the events. *)
Definition display (b : Board) : io unit :=
  fun inp =>
    if border_throws b
    then Throws (length_error "basic_string::_M_create") []
    else
      match mapM (mapM id) (display_rows b) with
      | Some shown => Returns tt inp [Display shown]
      | None => Undefined []
      end.

Definition with_board (g : Game) (b : Board) : Game :=
  {| board := b; moves := moves g |}.

Definition first_prompt : string := "Select first card (row col): ".
Definition second_prompt : string := "Select second card (row col): ".

(** How one iteration of the loop of [play] ended. *)
Inductive turn_end : Type :=
| FirstAlreadyMatched       (* line 157, continue *)
| SameCardTwice             (* line 167, continue *)
| SecondAlreadyMatched      (* line 172, continue *)
| PairMatched               (* lines 181-183 *)
| PairMismatched.           (* lines 185-189 *)

(** The body of [while (!board.allMatched())], lines 149-190. *)
Definition turn (g : Game) : io (Game * turn_end) :=
  run display (board g) ;;
  run emit (PrintMoves (moves g)) ;;
  do p1 <- readPos (board g) first_prompt ;;
  let r1 := fst p1 in
  let c1 := snd p1 in
  do cd1 <- defined (at_ (board g) r1 c1) ;;
  if isMatched cd1 then
    run emit (Print "That card is already matched. Choose another.") ;;
    io_ret (g, FirstAlreadyMatched)
  else
    do b1 <- defined (revealAt (board g) r1 c1) ;;
    run display b1 ;;
    do p2 <- readPos b1 second_prompt ;;
    let r2 := fst p2 in
    let c2 := snd p2 in
    if (r1 =? r2) && (c1 =? c2) then
      run emit (Print "You selected the same card twice. Try again.") ;;
      do b2 <- defined (hideAt b1 r1 c1) ;;
      io_ret (with_board g b2, SameCardTwice)
    else
      do cd2 <- defined (at_ b1 r2 c2) ;;
      if isMatched cd2 then
        run emit (Print "Second card already matched. Try again.") ;;
        do b2 <- defined (hideAt b1 r1 c1) ;;
        io_ret (with_board g b2, SecondAlreadyMatched)
      else
        do b2 <- defined (revealAt b1 r2 c2) ;;
        run display b2 ;;
        let moves' := Int.add (moves g) 1 in
        do v1 <- defined (getValue <$> at_ b2 r1 c1) ;;
        do v2 <- defined (getValue <$> at_ b2 r2 c2) ;;
        if Ascii.eqb v1 v2 then
          run emit (PrintMatch v1) ;;
          do b3 <- defined (matchAt b2 r1 c1) ;;
          do b4 <- defined (matchAt b3 r2 c2) ;;
          io_ret ({| board := b4; moves := moves' |}, PairMatched)
        else
          run emit (Print "Not a match.") ;;
          run emit (Print "Press Enter to continue and hide the two cards...") ;;
          run getline ;;
          do b3 <- defined (hideAt b2 r1 c1) ;;
          do b4 <- defined (hideAt b3 r2 c2) ;;
          io_ret ({| board := b4; moves := moves' |}, PairMismatched).

(** [while (!board.allMatched()) { ... }]; every iteration that returns
    has read at least one line, so [S (length inp)] iterations suffice. *)
Fixpoint play_loop (fuel : nat) (g : Game) : io Game :=
  match fuel with
  | O => fun _ => OutOfFuel
  | S fuel' =>
      if allMatched (board g) then io_ret g
      else
        do ge <- turn g ;;
        play_loop fuel' (fst ge)
  end.

(** [Game::play] *)
Definition play (fuel : nat) (g : Game) : io Game :=
  run emit (Print "Memory Puzzle (no timers, press Enter when asked)") ;;
  run emit (PrintSize (getRows (board g)) (getCols (board g))) ;;
  run emit (Print "Choose cards by entering row and column numbers separated by space.") ;;
  run emit (Print "Press Enter to start...") ;;
  run getline ;;
  do g' <- play_loop fuel g ;;
  run display (board g') ;;
  run emit (Print "CONGRATULATIONS! All pairs matched.") ;;
  run emit (PrintTotal (moves g')) ;;
  io_ret g'.

(** ** main (lines 199-224) *)

Definition invalid_line_message : string :=
  "Invalid input. Using default 4x4.".
Definition invalid_dims_message : string :=
  "Invalid board dimensions. Using default 4x4.".

(** Lines 204-211: the dimensions read from the first line. *)
Definition parse_dims (line : string) : (Z * Z) * list event :=
  if String.eqb line "" then ((4, 4), [])
  else
    match extract_two line with
    | Some (r, c) => ((r, c), [])
    | None => ((4, 4), [Print invalid_line_message])
    end.

(** Lines 212-215: the check before the game is built. *)
Definition check_dims (rc : Z * Z) : (Z * Z) * list event :=
  let '(r, c) := rc in
  if (r <=? 0) || (c <=? 0) || negb (Int.rem (Int.mul r c) 2 =? 0)
  then ((4, 4), [Print invalid_dims_message])
  else ((r, c), []).

(** Lines 201-215: from the first line of input to the dimensions the
    game is built with, and the diagnostics printed on the way. *)
Definition startup_dims (line : string) : (Z * Z) * list event :=
  let '(rc, out1) := parse_dims line in
  let '(rc', out2) := check_dims rc in
  (rc', out1 ++ out2).

(** [e.what()] *)
Definition what_of (e : exn) : string :=
  match e with
  | runtime_error what => what
  | length_error what => what
  end.

(** How a run of the program ends: with an exit code, or not at all. *)
Inductive run_end : Type :=
| Exits (code : Z) (out : list event)
| Hangs (out : list event)         (* for ever in [readPos] *)
| Faults (out : list event)        (* an access outside the vector *)
| Unfinished.                      (* the model ran out of fuel *)

Definition main_prompt : string :=
  "Enter board size (rows cols) or press Enter for default 4 4:".

(** [main]: the exit code and what was written. The [try] block holds
    the construction of the game and [play]; whatever is thrown in
    either is caught at line 219. *)
Definition main_ (draw : nat -> nat) (fuel : nat) (inp : list string)
  : run_end :=
  let '(line, rest) := match inp with
                       | l :: rest => (l, rest)
                       | [] => (""%string, [])
                       end in
  let '((r, c), diag) := startup_dims line in
  match Game_new draw r c with
  | Throw e =>
      Exits 1 (Print main_prompt :: diag ++ [PrintError (what_of e)])
  | Ok g =>
      match play fuel g rest with
      | Returns _ _ out => Exits 0 (Print main_prompt :: diag ++ out)
      | Throws e out =>
          Exits 1 (Print main_prompt :: diag ++ out
                   ++ [PrintError (what_of e)])
      | Spins out => Hangs (Print main_prompt :: diag ++ out)
      | Undefined out => Faults (Print main_prompt :: diag ++ out)
      | OutOfFuel => Unfinished
      end
  end.

(** ** Vocabulary of the properties *)

(** The shape a board has once it is built: positive dimensions, a number
    of cells that fits an [int], and one card per cell. *)
Definition board_wf (b : Board) : Prop :=
  0 < rows b /\ 0 < cols b /\ rows b * cols b <= Int.INT_MAX /\
  Z.of_nat (length (cards b)) = rows b * cols b.

(** The place of cell [(r, c)] in the vector. *)
Definition cell (b : Board) (p : Z * Z) : nat :=
  Z.to_nat (fst p * cols b + snd p).

Definition set_cards (b : Board) (cs : list Card) : Board :=
  {| rows := rows b; cols := cols b; cards := cs |}.

(** What [display] draws on a well-formed board. *)
Definition render (b : Board) : list (list ascii) :=
  map (fun r =>
         map (fun c => glyph (nth (cell b (Z.of_nat r, Z.of_nat c)) (cards b)
                                  (Card_new " ")))
             (seq 0 (Z.to_nat (cols b))))
      (seq 0 (Z.to_nat (rows b))).

(** The glyph drawn for cell [p]. *)
Definition shown_at (shown : list (list ascii)) (p : Z * Z) : option ascii :=
  match shown !! Z.to_nat (fst p) with
  | Some row => row !! Z.to_nat (snd p)
  | None => None
  end.

(** Between two turns every card that is not matched lies face down. *)
Definition settled (cs : list Card) : Prop :=
  Forall (fun cd => revealed cd = matched cd) cs.

(** What [readPos] writes while it turns down the lines [bad]. *)
Definition retries (prompt : string) (bad : list string) : list event :=
  flat_map (fun line => [Print prompt; GetLine (Some line);
                         Print invalid_input_message]) bad.

(** Runs that neither leave the vector nor run out of fuel (they return,
    wait for input for ever or end in an exception), and whose result,
    when they return, satisfies [Q]. *)
Definition wp {A : Type} (o : outcome A)
           (Q : A -> list string -> list event -> Prop) : Prop :=
  match o with
  | Returns a rest out => Q a rest out
  | Spins _ | Throws _ _ => True
  | Undefined _ | OutOfFuel => False
  end.

(** The five ways through the body of the loop of [play], on a
    well-formed board: the selections read, the cards found, the game
    left behind, the input left unread and the events written. *)
Inductive turn_rel (g : Game) (inp : list string)
  : Game -> turn_end -> list string -> list event -> Prop :=
| turn_first_matched p1 rest1 out1 cd1 :
    readPos (board g) first_prompt inp = Returns p1 rest1 out1 ->
    cards (board g) !! cell (board g) p1 = Some cd1 ->
    matched cd1 = true ->
    turn_rel g inp g FirstAlreadyMatched rest1
      ([Display (render (board g)); PrintMoves (moves g)] ++ out1 ++
       [Print "That card is already matched. Choose another."])
| turn_same_card p1 rest1 out1 cd1 b1 rest2 out2 :
    readPos (board g) first_prompt inp = Returns p1 rest1 out1 ->
    cards (board g) !! cell (board g) p1 = Some cd1 ->
    matched cd1 = false ->
    b1 = set_cards (board g)
           (alter reveal (cell (board g) p1) (cards (board g))) ->
    readPos b1 second_prompt rest1 = Returns p1 rest2 out2 ->
    turn_rel g inp
      (with_board g
         (set_cards (board g) (alter hide (cell (board g) p1) (cards b1))))
      SameCardTwice rest2
      ([Display (render (board g)); PrintMoves (moves g)] ++ out1 ++
       [Display (render b1)] ++ out2 ++
       [Print "You selected the same card twice. Try again."])
| turn_second_matched p1 rest1 out1 cd1 b1 p2 rest2 out2 cd2 :
    readPos (board g) first_prompt inp = Returns p1 rest1 out1 ->
    cards (board g) !! cell (board g) p1 = Some cd1 ->
    matched cd1 = false ->
    b1 = set_cards (board g)
           (alter reveal (cell (board g) p1) (cards (board g))) ->
    readPos b1 second_prompt rest1 = Returns p2 rest2 out2 ->
    p2 <> p1 ->
    cards (board g) !! cell (board g) p2 = Some cd2 ->
    matched cd2 = true ->
    turn_rel g inp
      (with_board g
         (set_cards (board g) (alter hide (cell (board g) p1) (cards b1))))
      SecondAlreadyMatched rest2
      ([Display (render (board g)); PrintMoves (moves g)] ++ out1 ++
       [Display (render b1)] ++ out2 ++
       [Print "Second card already matched. Try again."])
| turn_pair_matched p1 rest1 out1 cd1 b1 p2 rest2 out2 cd2 b2 :
    readPos (board g) first_prompt inp = Returns p1 rest1 out1 ->
    cards (board g) !! cell (board g) p1 = Some cd1 ->
    matched cd1 = false ->
    b1 = set_cards (board g)
           (alter reveal (cell (board g) p1) (cards (board g))) ->
    readPos b1 second_prompt rest1 = Returns p2 rest2 out2 ->
    p2 <> p1 ->
    cards (board g) !! cell (board g) p2 = Some cd2 ->
    matched cd2 = false ->
    b2 = set_cards (board g)
           (alter reveal (cell (board g) p2) (cards b1)) ->
    value cd1 = value cd2 ->
    turn_rel g inp
      {| board := set_cards (board g)
                    (alter setMatched (cell (board g) p2)
                       (alter setMatched (cell (board g) p1) (cards b2)));
         moves := Int.add (moves g) 1 |}
      PairMatched rest2
      ([Display (render (board g)); PrintMoves (moves g)] ++ out1 ++
       [Display (render b1)] ++ out2 ++
       [Display (render b2); PrintMatch (value cd1)])
| turn_pair_mismatched p1 rest1 out1 cd1 b1 p2 rest2 out2 cd2 b2 :
    readPos (board g) first_prompt inp = Returns p1 rest1 out1 ->
    cards (board g) !! cell (board g) p1 = Some cd1 ->
    matched cd1 = false ->
    b1 = set_cards (board g)
           (alter reveal (cell (board g) p1) (cards (board g))) ->
    readPos b1 second_prompt rest1 = Returns p2 rest2 out2 ->
    p2 <> p1 ->
    cards (board g) !! cell (board g) p2 = Some cd2 ->
    matched cd2 = false ->
    b2 = set_cards (board g)
           (alter reveal (cell (board g) p2) (cards b1)) ->
    value cd1 <> value cd2 ->
    turn_rel g inp
      {| board := set_cards (board g)
                    (alter hide (cell (board g) p2)
                       (alter hide (cell (board g) p1) (cards b2)));
         moves := Int.add (moves g) 1 |}
      PairMismatched (tail rest2)
      ([Display (render (board g)); PrintMoves (moves g)] ++ out1 ++
       [Display (render b1)] ++ out2 ++
       [Display (render b2); Print "Not a match.";
        Print "Press Enter to continue and hide the two cards...";
        GetLine (head rest2)]).

(** A run with its output forgotten: what is left is the result, the
    input still unread, or the way the run failed to return. *)
Definition forget {A : Type} (o : outcome A) : outcome A :=
  match o with
  | Returns a rest _ => Returns a rest []
  | Spins _ => Spins []
  | Throws e _ => Throws e []
  | Undefined _ => Undefined []
  | OutOfFuel => OutOfFuel
  end.

(** A line [readPos] turns down: it is malformed or out of range. *)
Definition rejected (b : Board) (line : string) : Prop :=
  accept_pos b line = None.

(** A turn that got as far as comparing the two values. *)
Definition compared (e : turn_end) : bool :=
  match e with
  | PairMatched | PairMismatched => true
  | _ => false
  end.

(** The games a session goes through, from the game the constructor
    built, with the way each turn on the way ended. *)
Inductive plays_to (g0 : Game) : list turn_end -> Game -> Prop :=
| plays_start : plays_to g0 [] g0
| plays_turn es g inp g' e rest out :
    plays_to g0 es g ->
    turn g inp = Returns (g', e) rest out ->
    plays_to g0 (es ++ [e]) g'.

(** The games of the sessions whose board fits an [int]. *)
Definition reachable (g : Game) : Prop :=
  exists (draw : nat -> nat) (r c : Z) (g0 : Game) (es : list turn_end),
    r * c <= Int.INT_MAX /\ Game_new draw r c = Ok g0 /\ plays_to g0 es g.

(** The two reasons for which [readPos] turns a line down. *)
Definition malformed (line : string) : Prop := extract_two line = None.

Definition out_of_range (b : Board) (line : string) : Prop :=
  exists r c : Z,
    extract_two line = Some (r, c) /\
    ~ (1 <= r <= rows b /\ 1 <= c <= cols b).

(** The number of turns that got to the comparison. *)
Definition completed (es : list turn_end) : nat :=
  length (List.filter compared es).


(** A 2 x 2 game as the constructor builds it when every draw is 0. *)
Definition example_game : Game :=
  {| board := {| rows := 2; cols := 2;
                 cards := map Card_new (list_ascii_of_string "BAAB") |};
     moves := 0 |}.

(** The counter a run leaves behind, when it returns. *)
Definition moves_after (o : outcome (Game * turn_end)) : option Z :=
  match o with
  | Returns ge _ _ => Some (moves (fst ge))
  | _ => None
  end.

(** ** The reading of a line in the words of the specification

    The specification speaks of the first two white-space-separated
    tokens of the line, each of which is an integer. The definitions
    below follow these words; they are compared with [extract_two] and
    [accept_pos], which follow the code. *)

(** The first token of [s] (its characters up to the first white space)
    and what follows it. *)
Fixpoint spec_token (s : list ascii) : list ascii * list ascii :=
  match s with
  | ch :: s' =>
      if isspace ch then ([], s)
      else let '(tok, rest) := spec_token s' in (ch :: tok, rest)
  | [] => ([], [])
  end.

(** A token that is an integer: an optional sign, then digits and
    nothing else, the number fitting an [int]. *)
Definition spec_token_int (tok : list ascii) : option Z :=
  let '(neg, ds) := read_sign tok in
  if starts_with_digit ds && forallb isdigit ds then
    let n := fst (read_digits ds 0) in
    let v := if neg : bool then - n else n in
    if Int.in_range v then Some v else None
  else None.

(** The first two tokens of the line, both integers. *)
Definition spec_two_ints (line : string) : option (Z * Z) :=
  let '(t1, rest1) := spec_token (skipws (list_ascii_of_string line)) in
  let '(t2, _) := spec_token (skipws rest1) in
  match spec_token_int t1, spec_token_int t2 with
  | Some r, Some c => Some (r, c)
  | _, _ => None
  end.

(** The line is accepted when the two integers are 1-based coordinates
    of a cell, and then gives the 0-based pair. *)
Definition spec_accept_pos (b : Board) (line : string) : option (Z * Z) :=
  match spec_two_ints line with
  | Some (r, c) =>
      if (1 <=? r) && (r <=? rows b) && (1 <=? c) && (c <=? cols b)
      then Some (r - 1, c - 1)
      else None
  | None => None
  end.

(** ** Counting cards and turns *)

(** The number of cards that are matched. *)
Definition matched_count (cs : list Card) : nat :=
  length (List.filter isMatched cs).

Definition is_pair_matched (e : turn_end) : bool :=
  match e with
  | PairMatched => true
  | _ => false
  end.

(** The number of turns that ended with a matched pair. *)
Definition pairs_matched (es : list turn_end) : nat :=
  length (List.filter is_pair_matched es).

(** A card whose value [display] draws. *)
Definition face_up (cd : Card) : bool := isMatched cd || isRevealed cd.

(** A line made of white space only. *)
Definition blank (line : string) : Prop :=
  Forall (fun ch => isspace ch = true) (list_ascii_of_string line).

(** Two updates of cells, one after the other. *)
Definition update_then (f g : Card -> Card) (b : Board) (p q : Z * Z)
  : option Board :=
  match update_at f b (fst p) (snd p) with
  | Some b' => update_at g b' (fst q) (snd q)
  | None => None
  end.

Definition is_pair_mismatched (e : turn_end) : bool :=
  match e with
  | PairMismatched => true
  | _ => false
  end.

(** The number of turns that ended with a mismatch. *)
Definition pairs_mismatched (es : list turn_end) : nat :=
  length (List.filter is_pair_mismatched es).

(** The lines that the events of a run report as read. *)
Definition lines_read (out : list event) : list string :=
  flat_map (fun e => match e with
                     | GetLine (Some line) => [line]
                     | _ => []
                     end) out.


(** * Properties *)

(** ** Machine integers *)

Lemma wrap_small (z : Z) :
  Int.INT_MIN <= z <= Int.INT_MAX -> Int.wrap z = z.
Proof.
  unfold Int.wrap, Int.INT_MIN, Int.INT_MAX. intros Hz.
  rewrite Z.mod_small by lia. lia.
Qed.

Lemma wrap_range (z : Z) : Int.INT_MIN <= Int.wrap z <= Int.INT_MAX.
Proof.
  unfold Int.wrap, Int.INT_MIN, Int.INT_MAX.
  pose proof (Z.mod_pos_bound (z + 2147483648) 4294967296). lia.
Qed.

(** Reduction to 32 bits keeps the parity. *)
Lemma wrap_even (z : Z) : Z.even (Int.wrap z) = Z.even z.
Proof.
  assert (Hw : Int.wrap z
               = z + 2 * (- 2147483648 * ((z + 2147483648) / 4294967296))).
  { unfold Int.wrap.
    pose proof (Z.div_mod (z + 2147483648) 4294967296). lia. }
  rewrite Hw. apply Z.even_add_mul_2.
Qed.

Lemma rem2_even (z : Z) : (Int.rem z 2 =? 0) = Z.even z.
Proof.
  unfold Int.rem. destruct (Z.even z) eqn:He.
  - apply Z.eqb_eq. apply Z.even_spec in He as [k ->].
    rewrite Z.mul_comm. apply Z.rem_mul. lia.
  - apply Z.eqb_neq. intros Hr.
    assert (Ho : Z.odd z = true) by (rewrite <- Z.negb_even, He; done).
    apply Z.odd_spec in Ho as [k ->].
    pose proof (Z.quot_rem' (2 * k + 1) 2) as Hq. rewrite Hr in Hq. lia.
Qed.

(** ** The pool and [makeValues] *)

Lemma pool_length : length pool = 70%nat.
Proof. reflexivity. Qed.

Lemma pool_NoDup : NoDup pool.
Proof. apply (bool_decide_unpack _). vm_compute. exact I. Qed.


Lemma take_as_nth {A : Type} (d : A) (l : list A) (n : nat) :
  (n <= length l)%nat -> take n l = map (fun k => nth k l d) (seq 0 n).
Proof.
  induction n as [|n IH]; intros Hn; [done|].
  rewrite seq_S, map_app. simpl.
  destruct (nth_lookup_or_length l n d) as [H|H]; [|lia].
  rewrite (take_S_r _ _ _ H), IH by lia. done.
Qed.

Lemma fill_from_pool_spec (rest : list ascii) (pairCount : Z) (vals : list ascii) :
  fill_from_pool rest pairCount vals
  = vals ++ take (Z.to_nat (pairCount - Z.of_nat (length vals))) rest.
Proof.
  revert vals. induction rest as [|ch rest IH]; intros vals; simpl.
  - by rewrite take_nil, app_nil_r.
  - destruct (Z.ltb_spec (Z.of_nat (length vals)) pairCount) as [Hlt|Hge].
    + rewrite IH, length_app. simpl.
      replace (Z.to_nat (pairCount - Z.of_nat (length vals)))
        with (S (Z.to_nat (pairCount - Z.of_nat (length vals + 1)))) by lia.
      simpl. by rewrite <- app_assoc.
    + replace (Z.to_nat (pairCount - Z.of_nat (length vals))) with O by lia.
      by rewrite app_nil_r.
Qed.

Lemma fill_cycling_spec (fuel i : nat) (pairCount : Z) (vals : list ascii) :
  pairCount - Z.of_nat (length vals) <= Z.of_nat fuel ->
  fill_cycling fuel i pairCount vals
  = vals ++ map (fun k => pool_at (k mod length pool))
                (seq i (Z.to_nat (pairCount - Z.of_nat (length vals)))).
Proof.
  revert i vals. induction fuel as [|fuel IH]; intros i vals Hf; simpl.
  - replace (Z.to_nat (pairCount - Z.of_nat (length vals))) with O by lia.
    by rewrite app_nil_r.
  - destruct (Z.ltb_spec (Z.of_nat (length vals)) pairCount) as [Hlt|Hge].
    + rewrite IH by (rewrite length_app; simpl; lia).
      rewrite length_app. simpl.
      replace (Z.to_nat (pairCount - Z.of_nat (length vals)))
        with (S (Z.to_nat (pairCount - Z.of_nat (length vals + 1)))) by lia.
      simpl. by rewrite <- app_assoc.
    + replace (Z.to_nat (pairCount - Z.of_nat (length vals))) with O by lia.
      by rewrite app_nil_r.
Qed.

(** The values made for [pairCount] pairs: position [k] holds
    [pool[k % 70]]. *)
Lemma makeValues_spec (pairCount : Z) :
  makeValues pairCount
  = map (fun k => pool_at (k mod 70)) (seq 0 (Z.to_nat pairCount)).
Proof.
  unfold makeValues. rewrite fill_from_pool_spec.
  change (length (@nil ascii)) with O. rewrite Z.sub_0_r, app_nil_l.
  rewrite fill_cycling_spec by lia.
  rewrite length_take. change (length pool) with 70%nat.
  destruct (Z.le_gt_cases pairCount 70) as [Hle|Hgt].
  - replace (Z.to_nat (pairCount - Z.of_nat (Z.to_nat pairCount `min` 70))) with O by lia.
    rewrite app_nil_r.
    rewrite (take_as_nth " "%char) by (rewrite pool_length; lia).
    apply map_ext_in. intros k Hk%in_seq.
    rewrite Nat.mod_small by lia. done.
  - rewrite take_ge by (rewrite pool_length; lia).
    replace (Z.to_nat pairCount `min` 70)%nat with 70%nat by lia.
    replace (Z.to_nat pairCount)
      with (70 + Z.to_nat (pairCount - Z.of_nat 70))%nat by lia.
    rewrite seq_app, map_app. f_equal.
    change (0 + 70)%nat with (70 + 0)%nat.
    rewrite <- (fmap_add_seq 70 0).
    change (Nat.add 70 <$> seq 0 (Z.to_nat (pairCount - Z.of_nat 70)))
      with (map (Nat.add 70) (seq 0 (Z.to_nat (pairCount - Z.of_nat 70)))).
    rewrite map_map. apply map_ext. intros k.
    f_equal. rewrite (Nat.add_comm 70 k).
    replace (k + 70)%nat with (k + 1 * 70)%nat by lia.
    by rewrite Nat.Div0.mod_add.
Qed.

Lemma makeValues_length (pairCount : Z) :
  length (makeValues pairCount) = Z.to_nat pairCount.
Proof. by rewrite makeValues_spec, length_map, length_seq. Qed.

(** Up to 70 pairs the values are the first symbols of the pool. *)
Lemma makeValues_small (pairCount : Z) :
  pairCount <= 70 -> makeValues pairCount = take (Z.to_nat pairCount) pool.
Proof.
  intros Hle. rewrite makeValues_spec.
  rewrite (take_as_nth " "%char) by (rewrite pool_length; lia).
  apply map_ext_in. intros k Hk%in_seq.
  rewrite Nat.mod_small by lia. done.
Qed.

(** ** The deck *)

Lemma makeDeck_prefix (values : list ascii) (n : nat) (acc : list ascii) :
  (n <= length values)%nat ->
  foldl (fun deck i => deck ++ [nth i values " "%char; nth i values " "%char])
        acc (seq 0 n)
  = acc ++ flat_map twice (take n values).
Proof.
  induction n as [|n IH]; intros Hn.
  - simpl. by rewrite app_nil_r.
  - rewrite seq_S, foldl_app, IH by lia. simpl.
    destruct (nth_lookup_or_length values n " "%char) as [H|H]; [|lia].
    rewrite (take_S_r _ _ _ H), flat_map_app. simpl.
    by rewrite <- app_assoc.
Qed.

Lemma makeDeck_spec (pairs : Z) (values : list ascii) :
  length values = Z.to_nat pairs ->
  makeDeck pairs values = flat_map twice values.
Proof.
  intros Hl. unfold makeDeck. rewrite makeDeck_prefix by lia.
  by rewrite <- Hl, firstn_all.
Qed.

Lemma flat_map_twice_length (vs : list ascii) :
  length (flat_map twice vs) = (2 * length vs)%nat.
Proof. induction vs as [|v vs IH]; simpl; lia. Qed.

Lemma count_twice (vs : list ascii) (v : ascii) :
  NoDup vs ->
  count_occ ascii_dec (flat_map twice vs) v
  = if decide (v ∈ vs) then 2%nat else 0%nat.
Proof.
  induction 1 as [|w vs Hw Hnd IH]; simpl; [done|].
  destruct (ascii_dec w v) as [->|Hne]; rewrite IH.
  - rewrite (decide_False (P := v ∈ vs)) by done.
    rewrite decide_True by left. done.
  - destruct (decide (v ∈ vs)) as [Hin|Hin].
    + rewrite decide_True by (by right). done.
    + rewrite decide_False; [done|].
      intros [->|?]%elem_of_cons; done.
Qed.

(** ** The shuffle *)

Lemma swap_Permutation {A : Type} (l : list A) (i j : nat) : swap l i j ≡ₚ l.
Proof.
  unfold swap. destruct (l !! i) as [x|] eqn:Hi; [|done].
  destruct (l !! j) as [y|] eqn:Hj; [|done].
  by apply Permutation_insert_swap.
Qed.

Lemma shuffle_steps_Permutation {A : Type} (draw : nat -> nat)
      (steps : list nat) (l : list A) :
  foldl (fun acc i => swap acc i (draw i mod S i)) l steps ≡ₚ l.
Proof.
  revert l. induction steps as [|i steps IH]; intros l; simpl; [done|].
  rewrite IH. apply swap_Permutation.
Qed.

Lemma shuffle_Permutation {A : Type} (draw : nat -> nat) (l : list A) :
  shuffle draw l ≡ₚ l.
Proof. apply shuffle_steps_Permutation. Qed.

(** ** Board construction *)

Lemma invalid_config_spec (r c : Z) :
  invalid_config r c = true <-> r <= 0 \/ c <= 0 \/ Z.odd (r * c) = true.
Proof.
  unfold invalid_config, Int.mul.
  rewrite rem2_even, wrap_even, Z.negb_even.
  rewrite !orb_true_iff, !Z.leb_le. tauto.
Qed.

Lemma values_of_new_cards (deck : list ascii) :
  map value (map Card_new deck) = deck.
Proof. rewrite map_map. simpl. apply map_id. Qed.

(** Past the two guards the constructor lays out the shuffled pairs. *)
Lemma Board_new_Ok (draw : nat -> nat) (r c : Z) :
  invalid_config r c = false ->
  0 <= Int.mul r c ->
  Board_new draw r c
  = Ok {| rows := r; cols := c;
          cards := map Card_new
                     (shuffle draw
                        (flat_map twice
                           (makeValues (Int.div (Int.mul r c) 2)))) |}.
Proof.
  intros Hv Hn. unfold Board_new, reserve_throws. rewrite Hv.
  destruct (Z.ltb_spec (Int.mul r c) 0) as [?|_]; [lia|].
  rewrite makeDeck_spec by apply makeValues_length. done.
Qed.

Lemma Board_new_cards (draw : nat -> nat) (r c : Z) (b : Board) :
  Board_new draw r c = Ok b ->
  rows b = r /\ cols b = c /\
  0 <= Int.mul r c /\
  map value (cards b)
    ≡ₚ flat_map twice (makeValues (Int.div (Int.mul r c) 2)) /\
  Forall (fun cd => revealed cd = false /\ matched cd = false) (cards b).
Proof.
  intros Hb.
  destruct (invalid_config r c) eqn:Hv.
  { unfold Board_new in Hb. rewrite Hv in Hb. discriminate. }
  destruct (Z.ltb_spec (Int.mul r c) 0) as [Hneg|Hpos].
  { unfold Board_new, reserve_throws in Hb. rewrite Hv in Hb.
    apply Z.ltb_lt in Hneg. rewrite Hneg in Hb. discriminate. }
  rewrite Board_new_Ok in Hb by done. injection Hb as <-. simpl.
  repeat split; try done.
  - rewrite values_of_new_cards. apply shuffle_Permutation.
  - apply Forall_forall. intros cd Hin.
    apply list_elem_of_In, in_map_iff in Hin as (v & <- & _). done.
Qed.

Lemma count_flat_map_twice (vs : list ascii) (v : ascii) :
  count_occ ascii_dec (flat_map twice vs) v
  = (2 * count_occ ascii_dec vs v)%nat.
Proof.
  induction vs as [|w vs IH]; simpl; [done|].
  rewrite IH. destruct (ascii_dec w v); lia.
Qed.

Lemma valid_config_product (r c : Z) :
  0 < r -> 0 < c -> Z.even (r * c) = true -> invalid_config r c = false.
Proof.
  intros Hr Hc He. destruct (invalid_config r c) eqn:Hv; [|done].
  apply invalid_config_spec in Hv as [?|[?|Ho]]; [lia|lia|].
  rewrite <- Z.negb_even, He in Ho. discriminate.
Qed.

(** C1: for [rows > 0], [cols > 0] with [rows*cols] even and at most 136
    the constructor returns a board of [rows*cols] cards whose values are
    a permutation of the paired deck over [rows*cols/2] distinct values:
    each of these values is in exactly two cells, and no other value is
    on the board. *)
Theorem board_holds_distinct_pairs (draw : nat -> nat) (r c : Z) :
  0 < r -> 0 < c -> Z.even (r * c) = true -> r * c <= 136 ->
  exists (b : Board) (distinct : list ascii),
    Board_new draw r c = Ok b /\
    rows b = r /\ cols b = c /\
    Z.of_nat (length (cards b)) = r * c /\
    NoDup distinct /\
    Z.of_nat (length distinct) = r * c / 2 /\
    map value (cards b) ≡ₚ flat_map twice distinct /\
    (forall v : ascii,
        count_occ ascii_dec (map value (cards b)) v
        = if decide (v ∈ distinct) then 2%nat else 0%nat).
Proof.
  intros Hr Hc He Hle.
  assert (Hmul : Int.mul r c = r * c).
  { apply wrap_small. unfold Int.INT_MIN, Int.INT_MAX. nia. }
  assert (Hpairs : Int.div (Int.mul r c) 2 = r * c / 2).
  { rewrite Hmul. apply Z.quot_div_nonneg; nia. }
  assert (Hhalf : r * c = 2 * (r * c / 2)).
  { destruct (proj1 (Z.even_spec _) He) as [k Hk].
    replace (r * c / 2) with k; [lia|].
    rewrite Hk, Z.mul_comm, Z.div_mul; lia. }
  pose proof (valid_config_product r c Hr Hc He) as Hv.
  pose proof (Board_new_Ok draw r c Hv ltac:(rewrite Hmul; nia)) as Hb.
  rewrite Hpairs, makeValues_small in Hb by lia.
  set (distinct := take (Z.to_nat (r * c / 2)) pool) in *.
  assert (Hlen : length distinct = Z.to_nat (r * c / 2)).
  { unfold distinct. rewrite length_take, pool_length. lia. }
  assert (Hnd : NoDup distinct).
  { apply (sublist_NoDup _ pool); [apply pool_NoDup|apply sublist_take]. }
  eexists _, distinct. split; [exact Hb|]. simpl.
  rewrite values_of_new_cards.
  split; [done|]. split; [done|]. split.
  { rewrite length_map, (Permutation_length (shuffle_Permutation _ _)).
    rewrite flat_map_twice_length, Hlen. lia. }
  split; [done|]. split; [lia|]. split; [apply shuffle_Permutation|].
  intros v. rewrite <- count_twice by done.
  apply Permutation_count_occ, shuffle_Permutation.
Qed.

Lemma board_holds_distinct_pairs_witness :
  exists (b : Board) (distinct : list ascii),
    Board_new (fun i => i) 2 3 = Ok b /\
    rows b = 2 /\ cols b = 3 /\
    Z.of_nat (length (cards b)) = 2 * 3 /\
    NoDup distinct /\
    Z.of_nat (length distinct) = 2 * 3 / 2 /\
    map value (cards b) ≡ₚ flat_map twice distinct /\
    (forall v : ascii,
        count_occ ascii_dec (map value (cards b)) v
        = if decide (v ∈ distinct) then 2%nat else 0%nat).
Proof.
  apply (board_holds_distinct_pairs (fun i => i) 2 3); [lia|lia|reflexivity|lia].
Defined.

(** C3, as stated, fails: a 46341 x 46342 board has positive dimensions
    and an even number of cells, yet the constructor does not succeed:
    the [int] product is negative and [deck.reserve] throws. *)
Lemma Board_new_overflow_counterexample :
  0 < 46341 /\ 0 < 46342 /\ Z.even (46341 * 46342) = true /\
  Board_new (fun _ => O) 46341 46342 = Throw (length_error "vector::reserve").
Proof.
  split; [lia|]. split; [lia|]. split; [reflexivity|].
  unfold Board_new. reflexivity.
Qed.

(** C3, amended: the constructor throws the invalid-configuration error
    exactly when [rows <= 0], [cols <= 0] or [rows*cols] is odd; for every
    other pair whose product fits an [int] (is at most [INT_MAX]) it
    succeeds; beyond that it succeeds exactly when the 32-bit product is
    not negative, and otherwise throws the length error of [reserve]. *)
Theorem Board_new_errors (draw : nat -> nat) (r c : Z) :
  (Board_new draw r c = Throw (runtime_error config_message)
   <-> r <= 0 \/ c <= 0 \/ Z.odd (r * c) = true) /\
  (0 < r -> 0 < c -> Z.even (r * c) = true ->
   (r * c <= Int.INT_MAX ->
    exists b, Board_new draw r c = Ok b /\ rows b = r /\ cols b = c) /\
   (0 <= Int.mul r c <-> exists b, Board_new draw r c = Ok b) /\
   (Int.mul r c < 0
    <-> Board_new draw r c = Throw (length_error "vector::reserve"))).
Proof.
  split.
  - rewrite <- invalid_config_spec. unfold Board_new.
    destruct (invalid_config r c); [done|].
    destruct (reserve_throws (Int.mul r c)); split; discriminate.
  - intros Hr Hc He.
    pose proof (valid_config_product r c Hr Hc He) as Hv.
    split; [|split].
    + intros Hle. eexists. rewrite Board_new_Ok; [done|done|].
      unfold Int.mul. rewrite wrap_small; unfold Int.INT_MIN; nia.
    + split.
      * intros Hpos. eexists. by rewrite Board_new_Ok.
      * intros [b Hb]. by apply Board_new_cards in Hb as (_ & _ & ? & _).
    + unfold Board_new, reserve_throws. rewrite Hv.
      destruct (Z.ltb_spec (Int.mul r c) 0); split; (done || lia).
Qed.

Lemma Board_new_errors_witness :
  (exists b, Board_new (fun _ => O) 4 4 = Ok b /\ rows b = 4 /\ cols b = 4) /\
  Board_new (fun _ => O) 3 3 = Throw (runtime_error config_message).
Proof.
  split.
  - apply (Board_new_errors (fun _ => O) 4 4); [lia|lia|reflexivity|].
    unfold Int.INT_MAX. lia.
  - apply (Board_new_errors (fun _ => O) 3 3). right. right. reflexivity.
Defined.

(** C8, as stated, fails: the pool does not have 68 symbols, and 69 pairs
    (a board of 138 cells) still get 69 different values. *)
Lemma pool_size_counterexample :
  length pool <> 68%nat /\ 68 < 69 /\ NoDup (makeValues 69).
Proof.
  split; [rewrite pool_length; lia|]. split; [lia|].
  rewrite makeValues_small by lia.
  apply (sublist_NoDup _ pool); [apply pool_NoDup|apply sublist_take].
Qed.

Lemma count_first_symbol (n : nat) :
  (71 <= n)%nat ->
  (2 <= count_occ ascii_dec
          (map (fun k => pool_at (k mod 70)) (seq 0 n)) "A"%char)%nat.
Proof.
  intros Hn. replace n with (71 + (n - 71))%nat by lia.
  rewrite seq_app, map_app, count_occ_app.
  assert (H71 : count_occ ascii_dec
                  (map (fun k => pool_at (k mod 70)) (seq 0 71)) "A"%char
                = 2%nat) by (vm_compute; reflexivity).
  rewrite H71. lia.
Qed.

(** C8, amended: the pool is a fixed ordered alphabet of exactly 70
    distinct symbols; the value of pair [k] is [pool[k % 70]], so up to
    70 pairs the values are distinct, and beyond 70 pairs (boards of more
    than 140 cells) the pool is cycled from its start and some value is in
    more than two cells. *)
Theorem pool_cycles_beyond_70 :
  length pool = 70%nat /\
  NoDup pool /\
  (forall pairCount : Z,
      makeValues pairCount
      = map (fun k => pool_at (k mod 70)) (seq 0 (Z.to_nat pairCount))) /\
  (forall pairCount : Z, pairCount <= 70 -> NoDup (makeValues pairCount)) /\
  (forall (draw : nat -> nat) (r c : Z) (b : Board),
      Board_new draw r c = Ok b ->
      (140 < length (cards b))%nat ->
      exists v : ascii,
        (2 < count_occ ascii_dec (map value (cards b)) v)%nat).
Proof.
  split; [apply pool_length|]. split; [apply pool_NoDup|].
  split; [apply makeValues_spec|]. split.
  - intros pairCount Hle. rewrite makeValues_small by done.
    apply (sublist_NoDup _ pool); [apply pool_NoDup|apply sublist_take].
  - intros draw r c b Hb Hlen.
    apply Board_new_cards in Hb as (_ & _ & _ & Hperm & _).
    pose proof (Permutation_length Hperm) as Hl.
    rewrite length_map, flat_map_twice_length, makeValues_length in Hl.
    exists "A"%char.
    rewrite (proj1 (Permutation_count_occ ascii_dec _ _) Hperm).
    rewrite count_flat_map_twice, makeValues_spec.
    pose proof (count_first_symbol (Z.to_nat (Int.div (Int.mul r c) 2))
                  ltac:(lia)).
    lia.
Qed.

Lemma pool_cycles_beyond_70_witness :
  NoDup (makeValues 8) /\
  exists b : Board,
    Board_new (fun _ => O) 12 12 = Ok b /\
    exists v : ascii,
      (2 < count_occ ascii_dec (map value (cards b)) v)%nat.
Proof.
  destruct pool_cycles_beyond_70 as (_ & _ & _ & Hsmall & Hbig). split.
  - apply Hsmall. lia.
  - destruct (Board_new (fun _ => O) 12 12) as [b|e] eqn:Hb;
      [|vm_compute in Hb; discriminate].
    exists b. split; [done|]. apply (Hbig _ _ _ _ Hb).
    vm_compute in Hb. injection Hb as <-. vm_compute. lia.
Defined.

(** ** Cards *)

Lemma matched_card_fixed (cd : Card) (o : card_op) :
  matched cd = true -> revealed cd = true -> apply_op cd o = cd.
Proof.
  destruct cd as [v rv m]. simpl. intros -> ->. by destruct o.
Qed.

Lemma matched_card_fixed_ops (cd : Card) (os : list card_op) :
  matched cd = true -> revealed cd = true -> apply_ops cd os = cd.
Proof.
  intros Hm Hr. induction os as [|o os IH]; [done|].
  unfold apply_ops in *. simpl. by rewrite matched_card_fixed.
Qed.

Lemma apply_op_invariant (cd : Card) (o : card_op) :
  (matched cd = true -> revealed cd = true) ->
  (matched (apply_op cd o) = true -> revealed (apply_op cd o) = true) /\
  (matched cd = true -> matched (apply_op cd o) = true) /\
  value (apply_op cd o) = value cd.
Proof.
  destruct cd as [v rv [|]], o; simpl; intros H; repeat split; auto; discriminate.
Qed.

Lemma apply_ops_invariant (cd : Card) (os : list card_op) :
  (matched cd = true -> revealed cd = true) ->
  (matched (apply_ops cd os) = true -> revealed (apply_ops cd os) = true) /\
  value (apply_ops cd os) = value cd.
Proof.
  revert cd. induction os as [|o os IH]; intros cd Hinv; [done|].
  unfold apply_ops in *. simpl.
  destruct (apply_op_invariant cd o Hinv) as (Hinv' & _ & Hv).
  destruct (IH _ Hinv') as (? & Hv'). split; [done|]. by rewrite Hv'.
Qed.

(** C2: [setMatched] sets both flags and is idempotent; on a matched card
    [reveal] and [hide] change nothing; whatever is called after
    [setMatched] leaves the card as it is, so [matched] is never unset
    and [revealed] stays true; and on every card built by the
    constructor, whatever was called on it, [matched] implies
    [revealed]. *)
Theorem matched_is_terminal (cd : Card) (os : list card_op) :
  matched (setMatched cd) = true /\
  revealed (setMatched cd) = true /\
  value (setMatched cd) = value cd /\
  setMatched (setMatched cd) = setMatched cd /\
  (matched cd = true -> reveal cd = cd /\ hide cd = cd) /\
  reveal (setMatched cd) = setMatched cd /\
  hide (setMatched cd) = setMatched cd /\
  apply_ops (setMatched cd) os = setMatched cd /\
  (forall v : ascii,
      matched (apply_ops (Card_new v) os) = true ->
      revealed (apply_ops (Card_new v) os) = true).
Proof.
  split; [done|]. split; [done|]. split; [done|]. split; [done|].
  split. { intros Hm. unfold reveal, hide. by rewrite Hm. }
  split; [done|]. split; [done|].
  split. { by apply matched_card_fixed_ops. }
  intros v. by apply apply_ops_invariant.
Qed.

Lemma matched_is_terminal_witness :
  reveal (setMatched (Card_new "A")) = setMatched (Card_new "A") /\
  hide (setMatched (Card_new "A")) = setMatched (Card_new "A") /\
  revealed (apply_ops (Card_new "A") [OpReveal; OpSetMatched; OpHide]) = true.
Proof.
  destruct (matched_is_terminal (setMatched (Card_new "A"))
              [OpReveal; OpSetMatched; OpHide]) as (_ & _ & _ & _ & H & _).
  destruct (matched_is_terminal (Card_new "A")
              [OpReveal; OpSetMatched; OpHide])
    as (_ & _ & _ & _ & _ & _ & _ & _ & Hinv).
  destruct (H eq_refl) as [Hr Hh].
  split; [exact Hr|]. split; [exact Hh|]. apply Hinv. reflexivity.
Defined.

(** ** Cells of a well-formed board *)

Lemma valid_spec (b : Board) (r c : Z) :
  valid b r c = true <-> 0 <= r < rows b /\ 0 <= c < cols b.
Proof.
  unfold valid, getRows, getCols.
  rewrite !andb_true_iff, !Z.leb_le, !Z.ltb_lt. lia.
Qed.

Lemma index_valid (b : Board) (r c : Z) :
  board_wf b -> valid b r c = true ->
  index b r c = r * cols b + c /\
  0 <= r * cols b + c /\
  (cell b (r, c) < length (cards b))%nat.
Proof.
  intros (Hr & Hc & Hmax & Hlen) [Hrr Hcc]%valid_spec.
  assert (Hlt : r * cols b + c < rows b * cols b) by nia.
  assert (Hrc : 0 <= r * cols b) by nia.
  unfold Int.INT_MAX in Hmax. split; [|split].
  - unfold index, Int.add, Int.mul.
    rewrite (wrap_small (r * cols b)) by (unfold Int.INT_MIN, Int.INT_MAX; lia).
    apply wrap_small. unfold Int.INT_MIN, Int.INT_MAX. lia.
  - lia.
  - unfold cell. simpl. lia.
Qed.

Lemma at_valid (b : Board) (r c : Z) :
  board_wf b -> valid b r c = true ->
  at_ b r c = cards b !! cell b (r, c).
Proof.
  intros Hwf Hv. destruct (index_valid b r c Hwf Hv) as (Hi & Hpos & _).
  unfold at_. rewrite Hi.
  destruct (Z.ltb_spec (r * cols b + c) 0); [lia|done].
Qed.

Lemma cell_is_Some (b : Board) (r c : Z) :
  board_wf b -> valid b r c = true ->
  is_Some (cards b !! cell b (r, c)).
Proof.
  intros Hwf Hv. apply lookup_lt_is_Some. by apply index_valid.
Qed.

Lemma update_at_valid (f : Card -> Card) (b : Board) (r c : Z) :
  board_wf b -> valid b r c = true ->
  update_at f b r c = Some (set_cards b (alter f (cell b (r, c)) (cards b))).
Proof.
  intros Hwf Hv. unfold update_at. rewrite at_valid by done.
  destruct (cell_is_Some b r c Hwf Hv) as [cd ->].
  destruct (index_valid b r c Hwf Hv) as (-> & _ & _). done.
Qed.

Lemma set_cards_wf (b : Board) (cs : list Card) :
  board_wf b -> length cs = length (cards b) -> board_wf (set_cards b cs).
Proof.
  intros (Hr & Hc & Hmax & Hlen) Hl. unfold board_wf. simpl.
  rewrite Hl. done.
Qed.

Lemma cell_inj (b : Board) (p q : Z * Z) :
  board_wf b ->
  valid b (fst p) (snd p) = true -> valid b (fst q) (snd q) = true ->
  cell b p = cell b q -> p = q.
Proof.
  intros (Hr & Hc & _) [Hp1 Hp2]%valid_spec [Hq1 Hq2]%valid_spec Heq.
  destruct p as [r1 c1], q as [r2 c2]. unfold cell in Heq. simpl in *.
  assert (Hz : r1 * cols b + c1 = r2 * cols b + c2) by nia.
  assert (r1 = r2) by nia. subst r2. f_equal. lia.
Qed.

(** ** What [display] draws *)

Lemma mapM_map_Some {A B C : Type} (g : B -> option C) (h : A -> B)
      (k : A -> C) (l : list A) :
  (forall x, x ∈ l -> g (h x) = Some (k x)) ->
  mapM g (map h l) = Some (map k l).
Proof.
  induction l as [|x l IH]; intros Hall; [done|].
  simpl. rewrite Hall by left. simpl.
  rewrite IH by (intros y Hy; apply Hall; by right). done.
Qed.

Lemma display_rows_render (b : Board) :
  board_wf b -> mapM (mapM id) (display_rows b) = Some (render b).
Proof.
  intros Hwf. unfold display_rows, render.
  apply mapM_map_Some. intros r Hr.
  apply mapM_map_Some. intros c Hc.
  apply list_elem_of_In, in_seq in Hr. apply list_elem_of_In, in_seq in Hc.
  assert (Hv : valid b (Z.of_nat r) (Z.of_nat c) = true)
    by (apply valid_spec; lia).
  rewrite at_valid by done.
  destruct (cell_is_Some b _ _ Hwf Hv) as [cd Hcd].
  rewrite Hcd. simpl. by rewrite (nth_lookup_Some _ _ _ _ Hcd).
Qed.

Lemma render_at (b : Board) (p : Z * Z) :
  board_wf b -> valid b (fst p) (snd p) = true ->
  shown_at (render b) p = glyph <$> cards b !! cell b p.
Proof.
  intros Hwf Hv. destruct p as [r c]. simpl in Hv.
  pose proof (proj1 (valid_spec b r c) Hv) as [Hr Hc].
  destruct (cell_is_Some b r c Hwf Hv) as [cd Hcd].
  unfold shown_at, render. simpl fst. simpl snd.
  change (map ?f ?l) with (f <$> l).
  rewrite list_lookup_fmap, lookup_seq_lt by lia. simpl.
  rewrite list_lookup_fmap, lookup_seq_lt by lia. simpl.
  rewrite !Z2Nat.id by lia.
  by rewrite Hcd, (nth_lookup_Some _ _ _ _ Hcd).
Qed.

(** ** [readPos] *)

Lemma accept_pos_valid (b : Board) (line : string) (p : Z * Z) :
  accept_pos b line = Some p -> valid b (fst p) (snd p) = true.
Proof.
  unfold accept_pos. destruct (extract_two line) as [[r c]|]; [|done].
  destruct (valid b (Int.sub r 1) (Int.sub c 1)) eqn:Hv; [|done].
  by intros [= <-].
Qed.

Lemma readPos_set_cards (b : Board) (cs : list Card) (prompt : string)
      (inp : list string) :
  readPos (set_cards b cs) prompt inp = readPos b prompt inp.
Proof.
  induction inp as [|line rest IH]; [done|].
  simpl. rewrite IH. done.
Qed.

(** [readPos] returns on the first line that passes the test; the lines
    before it were turned down, each with the prompt and the message. *)
Lemma readPos_Returns (b : Board) (prompt : string) (inp : list string)
      (p : Z * Z) (rest : list string) (out : list event) :
  readPos b prompt inp = Returns p rest out ->
  exists (bad : list string) (line : string),
    inp = bad ++ line :: rest /\
    Forall (fun l => accept_pos b l = None) bad /\
    accept_pos b line = Some p /\
    out = retries prompt bad ++ [Print prompt; GetLine (Some line)].
Proof.
  revert out. induction inp as [|l inp IH]; intros out; [done|].
  simpl. destruct (accept_pos b l) as [q|] eqn:Hl.
  - intros [= -> -> <-]. by exists [], l.
  - destruct (readPos b prompt inp) as [q rest' out'| | | |] eqn:Hr;
      simpl; try done.
    intros [= -> -> <-].
    destruct (IH _ eq_refl) as (bad & line & -> & Hbad & Hline & ->).
    exists (l :: bad), line. split; [done|]. split; [by constructor|].
    split; [done|]. done.
Qed.

Lemma readPos_valid (b : Board) (prompt : string) (inp : list string)
      (p : Z * Z) (rest : list string) (out : list event) :
  readPos b prompt inp = Returns p rest out ->
  valid b (fst p) (snd p) = true.
Proof.
  intros (bad & line & _ & _ & Hline & _)%readPos_Returns.
  by apply accept_pos_valid in Hline.
Qed.

(** Lines that are turned down only add their retries to the output. *)
Lemma readPos_retries (b : Board) (prompt : string) (bad inp : list string) :
  Forall (fun l => accept_pos b l = None) bad ->
  readPos b prompt (bad ++ inp)
  = prepend (retries prompt bad) (readPos b prompt inp).
Proof.
  induction 1 as [|l bad Hl Hbad IH]; simpl.
  - by destruct (readPos b prompt inp).
  - rewrite Hl, IH. by destruct (readPos b prompt inp).
Qed.

(** ** Reasoning about runs *)

Lemma wp_bind {A B : Type} (m : io A) (k : A -> io B) (inp : list string)
      (Q : B -> list string -> list event -> Prop) :
  wp (m inp)
     (fun a rest1 out1 =>
        wp (k a rest1) (fun b rest out2 => Q b rest (out1 ++ out2))) ->
  wp (io_bind m k inp) Q.
Proof.
  unfold io_bind. destruct (m inp) as [a rest1 out1| | | |]; simpl; try done.
  by destruct (k a rest1).
Qed.

Lemma wp_ret {A : Type} (a : A) (inp : list string)
      (Q : A -> list string -> list event -> Prop) :
  Q a inp [] -> wp (io_ret a inp) Q.
Proof. done. Qed.

Lemma wp_emit (e : event) (inp : list string)
      (Q : unit -> list string -> list event -> Prop) :
  Q tt inp [e] -> wp (emit e inp) Q.
Proof. done. Qed.

Lemma wp_defined {A : Type} (o : option A) (a : A) (inp : list string)
      (Q : A -> list string -> list event -> Prop) :
  o = Some a -> Q a inp [] -> wp (defined o inp) Q.
Proof. by intros ->. Qed.

Lemma wp_getline (inp : list string)
      (Q : option string -> list string -> list event -> Prop) :
  Q (head inp) (tail inp) [GetLine (head inp)] -> wp (getline inp) Q.
Proof. by destruct inp. Qed.

Lemma wp_display (b : Board) (inp : list string)
      (Q : unit -> list string -> list event -> Prop) :
  board_wf b -> Q tt inp [Display (render b)] -> wp (display b inp) Q.
Proof.
  intros Hwf HQ. unfold display. destruct (border_throws b); [done|].
  by rewrite display_rows_render.
Qed.

Lemma wp_readPos (b : Board) (prompt : string) (inp : list string)
      (Q : Z * Z -> list string -> list event -> Prop) :
  (forall p rest out, readPos b prompt inp = Returns p rest out -> Q p rest out) ->
  wp (readPos b prompt inp) Q.
Proof.
  intros HQ.
  assert (Hdef : match readPos b prompt inp with
                 | Undefined _ | OutOfFuel => False
                 | _ => True
                 end).
  { clear HQ. induction inp as [|l inp IH]; [done|].
    simpl. destruct (accept_pos b l); [done|].
    by destruct (readPos b prompt inp). }
  destruct (readPos b prompt inp) as [p rest out| | |out|]; simpl; try done.
  by apply HQ.
Qed.

Lemma wp_mono {A : Type} (o : outcome A)
      (Q Q' : A -> list string -> list event -> Prop) :
  (forall a rest out, Q a rest out -> Q' a rest out) -> wp o Q -> wp o Q'.
Proof. intros HQ. destruct o; simpl; auto. Qed.

(** ** One turn *)

Lemma reveal_value (cd : Card) : value (reveal cd) = value cd.
Proof. destruct cd as [v rv m]. by destruct m. Qed.

Lemma reveal_matched (cd : Card) : matched (reveal cd) = matched cd.
Proof. destruct cd as [v rv m]. by destruct m. Qed.

Lemma hide_matched (cd : Card) : matched (hide cd) = matched cd.
Proof. destruct cd as [v rv m]. by destruct m. Qed.

Lemma same_cell_test (r1 c1 r2 c2 : Z) :
  (r1 =? r2) && (c1 =? c2) = true <-> (r2, c2) = (r1, c1).
Proof.
  rewrite andb_true_iff, !Z.eqb_eq. split.
  - intros [H1 H2]. by rewrite H1, H2.
  - intros H. injection H as H1 H2. by rewrite H1, H2.
Qed.

Ltac close_turn H :=
  refine (eq_rect _ (fun o => turn_rel _ _ _ _ _ o) H _ _);
  simpl; rewrite ?app_nil_r, <- ?app_assoc; simpl; reflexivity.

(** On a well-formed board the body of the loop never leaves the vector,
    and when it returns it went one of the five ways of [turn_rel]. *)
Lemma turn_sound (g : Game) (inp : list string) :
  board_wf (board g) ->
  wp (turn g inp)
     (fun ge rest out => turn_rel g inp (fst ge) (snd ge) rest out).
Proof.
  intros Hwf. unfold turn.
  apply wp_bind, wp_display; [done|].
  apply wp_bind, wp_emit.
  apply wp_bind, wp_readPos. intros [r1 c1] rest1 out1 H1.
  cbv zeta. cbn [fst snd].
  pose proof (readPos_valid _ _ _ _ _ _ H1) as Hv1. cbn [fst snd] in Hv1.
  destruct (cell_is_Some _ _ _ Hwf Hv1) as [cd1 Hcd1].
  apply wp_bind. eapply wp_defined; [by rewrite at_valid|].
  destruct (isMatched cd1) eqn:Hm1.
  { apply wp_bind, wp_emit. apply wp_ret.
    close_turn (turn_first_matched g inp _ _ _ _ H1 Hcd1 Hm1). }
  set (b1 := set_cards (board g)
               (alter reveal (cell (board g) (r1, c1)) (cards (board g)))).
  assert (Hwf1 : board_wf b1).
  { apply set_cards_wf; [done|]. apply length_alter. }
  apply wp_bind. eapply wp_defined; [by apply update_at_valid|]. fold b1.
  apply wp_bind, wp_display; [done|].
  apply wp_bind, wp_readPos. intros [r2 c2] rest2 out2 H2.
  cbv zeta. cbn [fst snd].
  pose proof (readPos_valid _ _ _ _ _ _ H2) as Hv2. cbn [fst snd] in Hv2.
  destruct ((r1 =? r2) && (c1 =? c2)) eqn:Hsame.
  { apply same_cell_test in Hsame. injection Hsame as -> ->.
    apply wp_bind, wp_emit.
    apply wp_bind. eapply wp_defined; [by apply update_at_valid|].
    apply wp_ret.
    close_turn (turn_same_card g inp _ _ _ _ b1 _ _ H1 Hcd1 Hm1 eq_refl H2). }
  assert (Hne : (r2, c2) <> (r1, c1)).
  { intros Heq%same_cell_test. congruence. }
  assert (Hcell : cell (board g) (r1, c1) <> cell (board g) (r2, c2)).
  { intros Heq. apply (cell_inj (board g)) in Heq; [congruence|done..]. }
  destruct (cell_is_Some _ _ _ Hwf Hv2) as [cd2 Hcd2].
  assert (Hcd2' : cards b1 !! cell b1 (r2, c2) = Some cd2).
  { change (cards b1 !! cell b1 (r2, c2))
      with (alter reveal (cell (board g) (r1, c1)) (cards (board g))
            !! cell (board g) (r2, c2)).
    by rewrite list_lookup_alter_ne. }
  apply wp_bind. eapply wp_defined; [by rewrite at_valid|].
  destruct (isMatched cd2) eqn:Hm2.
  { apply wp_bind, wp_emit.
    apply wp_bind. eapply wp_defined; [by apply update_at_valid|].
    apply wp_ret.
    close_turn (turn_second_matched g inp _ _ _ _ b1 _ _ _ _
                  H1 Hcd1 Hm1 eq_refl H2 Hne Hcd2 Hm2). }
  set (b2 := set_cards (board g)
               (alter reveal (cell (board g) (r2, c2)) (cards b1))).
  assert (Hwf2 : board_wf b2).
  { apply set_cards_wf; [done|]. unfold b1. simpl. by rewrite !length_alter. }
  apply wp_bind. eapply wp_defined; [by apply update_at_valid|].
  change (set_cards b1 (alter reveal (cell b1 (r2, c2)) (cards b1))) with b2.
  apply wp_bind, wp_display; [done|].
  assert (Hb2_1 : cards b2 !! cell b2 (r1, c1) = Some (reveal cd1)).
  { change (cards b2 !! cell b2 (r1, c1))
      with (alter reveal (cell (board g) (r2, c2))
              (alter reveal (cell (board g) (r1, c1)) (cards (board g)))
            !! cell (board g) (r1, c1)).
    rewrite list_lookup_alter_ne by done.
    by rewrite list_lookup_alter_eq, Hcd1. }
  assert (Hb2_2 : cards b2 !! cell b2 (r2, c2) = Some (reveal cd2)).
  { change (cards b2 !! cell b2 (r2, c2))
      with (alter reveal (cell b1 (r2, c2)) (cards b1) !! cell b1 (r2, c2)).
    by rewrite list_lookup_alter_eq, Hcd2'. }
  apply wp_bind. eapply (wp_defined _ (value cd1)).
  { rewrite at_valid, Hb2_1 by done. simpl. unfold getValue.
    by rewrite reveal_value. }
  apply wp_bind. eapply (wp_defined _ (value cd2)).
  { rewrite at_valid, Hb2_2 by done. simpl. unfold getValue.
    by rewrite reveal_value. }
  destruct (Ascii.eqb (value cd1) (value cd2)) eqn:Heq.
  - apply Ascii.eqb_eq in Heq.
    apply wp_bind, wp_emit.
    apply wp_bind. eapply wp_defined; [by apply update_at_valid|].
    apply wp_bind. eapply wp_defined.
    { apply update_at_valid; [|done].
      apply set_cards_wf; [done|]. apply length_alter. }
    apply wp_ret.
    close_turn (turn_pair_matched g inp _ _ _ _ b1 _ _ _ _ b2
                  H1 Hcd1 Hm1 eq_refl H2 Hne Hcd2 Hm2 eq_refl Heq).
  - apply Ascii.eqb_neq in Heq.
    apply wp_bind, wp_emit. apply wp_bind, wp_emit.
    apply wp_bind, wp_getline.
    apply wp_bind. eapply wp_defined; [by apply update_at_valid|].
    apply wp_bind. eapply wp_defined.
    { apply update_at_valid; [|done].
      apply set_cards_wf; [done|]. apply length_alter. }
    apply wp_ret.
    close_turn (turn_pair_mismatched g inp _ _ _ _ b1 _ _ _ _ b2
                  H1 Hcd1 Hm1 eq_refl H2 Hne Hcd2 Hm2 eq_refl Heq).
Qed.

(** A turn that returns went one of the five ways. *)
Lemma turn_Returns (g g' : Game) (e : turn_end) (inp rest : list string)
      (out : list event) :
  board_wf (board g) ->
  turn g inp = Returns (g', e) rest out ->
  turn_rel g inp g' e rest out.
Proof.
  intros Hwf Ht. pose proof (turn_sound g inp Hwf) as Hs.
  rewrite Ht in Hs. exact Hs.
Qed.

Lemma turn_rel_wf (g g' : Game) (e : turn_end) (inp rest : list string)
      (out : list event) :
  board_wf (board g) ->
  turn_rel g inp g' e rest out ->
  board_wf (board g') /\
  rows (board g') = rows (board g) /\ cols (board g') = cols (board g).
Proof.
  intros Hwf Hrel.
  destruct Hrel; subst; simpl; (split; [|done]); try done;
    apply set_cards_wf; try done; by rewrite !length_alter.
Qed.

(** ** The board after a turn *)

Lemma two_cells_lookup (f : Card -> Card) (cs : list Card) (i1 i2 : nat)
      (cd1 cd2 : Card) :
  i1 <> i2 -> cs !! i1 = Some cd1 -> cs !! i2 = Some cd2 ->
  let cs' := alter f i2 (alter f i1 (alter reveal i2 (alter reveal i1 cs))) in
  cs' !! i1 = Some (f (reveal cd1)) /\
  cs' !! i2 = Some (f (reveal cd2)) /\
  (forall i, i <> i1 -> i <> i2 -> cs' !! i = cs !! i).
Proof.
  intros Hne H1 H2. cbv zeta. split; [|split].
  - rewrite list_lookup_alter_ne, list_lookup_alter_eq by done.
    rewrite list_lookup_alter_ne, list_lookup_alter_eq by done.
    by rewrite H1.
  - rewrite list_lookup_alter_eq, list_lookup_alter_ne by done.
    rewrite list_lookup_alter_eq, list_lookup_alter_ne by done.
    by rewrite H2.
  - intros i Hi1 Hi2. by rewrite !list_lookup_alter_ne.
Qed.

Lemma hide_reveal_back (cs : list Card) (i : nat) (cd : Card) :
  cs !! i = Some cd -> revealed cd = matched cd ->
  alter hide i (alter reveal i cs) = cs.
Proof.
  intros Hcd Hs. apply list_eq. intros j.
  destruct (decide (i = j)) as [<-|Hne].
  - rewrite !list_lookup_alter_eq, Hcd. simpl. f_equal.
    destruct cd as [v rv m]. simpl in Hs. subst rv. by destruct m.
  - by rewrite !list_lookup_alter_ne.
Qed.


Lemma set_cards_same (b : Board) : set_cards b (cards b) = b.
Proof. by destruct b. Qed.

Lemma turn_rel_settled (g g' : Game) (e : turn_end) (inp rest : list string)
      (out : list event) :
  board_wf (board g) -> settled (cards (board g)) ->
  turn_rel g inp g' e rest out -> settled (cards (board g')).
Proof.
  intros Hwf Hs Hrel.
  destruct Hrel as
    [ p1 rest1 out1 cd1 H1 Hcd1 Hm1
    | p1 rest1 out1 cd1 b1 rest2 out2 H1 Hcd1 Hm1 -> H2
    | p1 rest1 out1 cd1 b1 p2 rest2 out2 cd2 H1 Hcd1 Hm1 -> H2 Hne Hcd2 Hm2
    | p1 rest1 out1 cd1 b1 p2 rest2 out2 cd2 b2 H1 Hcd1 Hm1 -> H2 Hne Hcd2 Hm2 -> Hv
    | p1 rest1 out1 cd1 b1 p2 rest2 out2 cd2 b2 H1 Hcd1 Hm1 -> H2 Hne Hcd2 Hm2 -> Hv ];
    simpl; try done.
  1,2: rewrite (hide_reveal_back _ _ cd1); try done;
       by apply (Forall_lookup_1 _ _ _ _ Hs Hcd1).
  all: rewrite readPos_set_cards in H2;
    pose proof (readPos_valid _ _ _ _ _ _ H1) as Hv1;
    pose proof (readPos_valid _ _ _ _ _ _ H2) as Hv2;
    assert (Hcell : cell (board g) p1 <> cell (board g) p2)
      by (intros Heq; apply (cell_inj (board g)) in Heq; [congruence|done..]);
    apply Forall_lookup_2; intros i cd Hi.
  - destruct (two_cells_lookup setMatched _ _ _ _ _ Hcell Hcd1 Hcd2)
      as (E1 & E2 & E3). cbv zeta in *.
    destruct (decide (i = cell (board g) p1)) as [->|N1]; [by simplify_eq|].
    destruct (decide (i = cell (board g) p2)) as [->|N2]; [by simplify_eq|].
    rewrite E3 in Hi by done. by apply (Forall_lookup_1 _ _ _ _ Hs Hi).
  - destruct (two_cells_lookup hide _ _ _ _ _ Hcell Hcd1 Hcd2)
      as (E1 & E2 & E3). cbv zeta in *.
    destruct (decide (i = cell (board g) p1)) as [->|N1].
    { simplify_eq. destruct cd1 as [v rv m]. simpl in *. by subst m. }
    destruct (decide (i = cell (board g) p2)) as [->|N2].
    { simplify_eq. destruct cd2 as [v rv m]. simpl in *. by subst m. }
    rewrite E3 in Hi by done. by apply (Forall_lookup_1 _ _ _ _ Hs Hi).
Qed.

Lemma turn_rel_moves (g g' : Game) (e : turn_end) (inp rest : list string)
      (out : list event) :
  turn_rel g inp g' e rest out ->
  moves g' = if compared e then Int.add (moves g) 1 else moves g.
Proof. by destruct 1. Qed.

(** ** The games of a session *)

Lemma Board_new_wf (draw : nat -> nat) (r c : Z) (b : Board) :
  r * c <= Int.INT_MAX -> Board_new draw r c = Ok b ->
  board_wf b /\ settled (cards b).
Proof.
  intros Hmax Hb.
  assert (Hv : invalid_config r c = false).
  { unfold Board_new in Hb. by destruct (invalid_config r c). }
  assert (Hrc : 0 < r /\ 0 < c /\ Z.even (r * c) = true).
  { destruct (Z.le_gt_cases r 0) as [Hr|Hr].
    { assert (invalid_config r c = true) by (apply invalid_config_spec; auto).
      congruence. }
    destruct (Z.le_gt_cases c 0) as [Hc|Hc].
    { assert (invalid_config r c = true) by (apply invalid_config_spec; auto).
      congruence. }
    destruct (Z.even (r * c)) eqn:He; [lia|].
    assert (invalid_config r c = true).
    { apply invalid_config_spec. right. right. by rewrite <- Z.negb_even, He. }
    congruence. }
  destruct Hrc as (Hr & Hc & He).
  assert (Hmul : Int.mul r c = r * c).
  { apply wrap_small. unfold Int.INT_MIN, Int.INT_MAX in *. nia. }
  destruct (Board_new_cards _ _ _ _ Hb) as (Hrows & Hcols & _ & Hperm & Hnew).
  apply Permutation_length in Hperm.
  rewrite length_map, flat_map_twice_length, makeValues_length, Hmul in Hperm.
  destruct (proj1 (Z.even_spec _) He) as [k Hk].
  assert (Hq : Int.div (r * c) 2 = k).
  { unfold Int.div. rewrite Hk, Z.mul_comm. apply Z.quot_mul. lia. }
  rewrite Hq in Hperm.
  split.
  - unfold board_wf. rewrite Hrows, Hcols, Hperm. repeat split; try lia; nia.
  - unfold settled. eapply Forall_impl; [exact Hnew|].
    intros cd [-> ->]. done.
Qed.

Lemma plays_to_invariant (g0 g : Game) (es : list turn_end) :
  board_wf (board g0) -> settled (cards (board g0)) ->
  Int.INT_MIN <= moves g0 <= Int.INT_MAX ->
  plays_to g0 es g ->
  board_wf (board g) /\ settled (cards (board g)) /\
  Int.INT_MIN <= moves g <= Int.INT_MAX.
Proof.
  intros Hwf Hs Hm. induction 1 as [|es g inp g' e rest out Hp IH Ht]; [done|].
  destruct IH as (Hwf' & Hs' & Hm').
  apply turn_Returns in Ht; [|done].
  split; [by eapply turn_rel_wf|]. split; [by eapply turn_rel_settled|].
  rewrite (turn_rel_moves _ _ _ _ _ _ Ht).
  destruct (compared e); [apply wrap_range|done].
Qed.

(** Every game of a session has a well-formed board on which the cards
    that are not matched lie face down, and a counter in the range of
    [int]. *)
Lemma reachable_invariant (g : Game) :
  reachable g ->
  board_wf (board g) /\ settled (cards (board g)) /\
  Int.INT_MIN <= moves g <= Int.INT_MAX.
Proof.
  intros (draw & r & c & g0 & es & Hmax & Hnew & Hp).
  unfold Game_new in Hnew.
  destruct (Board_new draw r c) as [b|] eqn:Hb; [|done].
  injection Hnew as <-.
  destruct (Board_new_wf _ _ _ _ Hmax Hb) as [Hwf Hs].
  apply (plays_to_invariant {| board := b; moves := 0 |} g es);
    [exact Hwf|exact Hs| |exact Hp].
  simpl. unfold Int.INT_MIN, Int.INT_MAX. lia.
Qed.

(** ** Lines that are turned down *)

Lemma forget_prepend {A : Type} (evs : list event) (o : outcome A) :
  forget (prepend evs o) = forget o.
Proof. by destruct o. Qed.

Lemma forget_bind {A B : Type} (m m' : io A) (k : A -> io B)
      (inp inp' : list string) :
  forget (m inp) = forget (m' inp') ->
  forget (io_bind m k inp) = forget (io_bind m' k inp').
Proof.
  unfold io_bind. intros H.
  destruct (m inp), (m' inp'); simpl in H; try done.
  - injection H as -> ->. by rewrite !forget_prepend.
  - by injection H as ->.
Qed.

Lemma bind_display {A : Type} (b : Board) (k : unit -> io A)
      (inp : list string) :
  io_bind (display b) k inp
  = if border_throws b
    then Throws (length_error "basic_string::_M_create") []
    else
      match mapM (mapM id) (display_rows b) with
      | Some shown => prepend [Display shown] (k tt inp)
      | None => Undefined []
      end.
Proof.
  unfold io_bind, display. destruct (border_throws b); [done|].
  by destruct (mapM _ _).
Qed.

Lemma bind_emit {A : Type} (e : event) (k : unit -> io A) (inp : list string) :
  io_bind (emit e) k inp = prepend [e] (k tt inp).
Proof. done. Qed.

Lemma bind_defined {A B : Type} (o : option A) (k : A -> io B)
      (inp : list string) :
  io_bind (defined o) k inp
  = match o with
    | Some a => prepend [] (k a inp)
    | None => Undefined []
    end.
Proof. unfold io_bind, defined. by destruct o. Qed.

Lemma bind_readPos_accept {A : Type} (b : Board) (prompt line : string)
      (p : Z * Z) (k : Z * Z -> io A) (rest : list string) :
  accept_pos b line = Some p ->
  io_bind (readPos b prompt) k (line :: rest)
  = prepend [Print prompt; GetLine (Some line)] (k p rest).
Proof. intros Hacc. unfold io_bind. simpl. by rewrite Hacc. Qed.

(** Lines turned down at the first prompt leave the result of the turn as
    it is. *)
Lemma turn_first_retries (g : Game) (bad inp : list string) :
  Forall (rejected (board g)) bad ->
  forget (turn g (bad ++ inp)) = forget (turn g inp).
Proof.
  intros Hbad. unfold turn. rewrite !bind_display.
  destruct (border_throws _); [done|].
  destruct (mapM _ _); [|done].
  rewrite !forget_prepend, !bind_emit, !forget_prepend.
  apply forget_bind. by rewrite readPos_retries, forget_prepend.
Qed.

(** So do lines turned down at the second prompt, which is reached when
    the first selection is a card that is not matched. *)
Lemma turn_second_retries (g : Game) (l1 : string) (p1 : Z * Z) (cd1 : Card)
      (bad inp : list string) :
  accept_pos (board g) l1 = Some p1 ->
  at_ (board g) (fst p1) (snd p1) = Some cd1 ->
  matched cd1 = false ->
  Forall (rejected (board g)) bad ->
  forget (turn g (l1 :: bad ++ inp)) = forget (turn g (l1 :: inp)).
Proof.
  intros Hacc Hat Hm Hbad. unfold turn. rewrite !bind_display.
  destruct (border_throws _); [done|].
  destruct (mapM _ _); [|done].
  rewrite !forget_prepend, !bind_emit, !forget_prepend.
  rewrite !(bind_readPos_accept _ _ _ _ _ _ Hacc), !forget_prepend.
  cbv zeta. rewrite !bind_defined, Hat, !forget_prepend.
  unfold isMatched. rewrite Hm, !bind_defined.
  destruct (revealAt (board g) (fst p1) (snd p1)) as [b1|] eqn:Hb1; [|done].
  rewrite !forget_prepend, !bind_display.
  destruct (border_throws _); [done|].
  destruct (mapM _ _); [|done].
  rewrite !forget_prepend. apply forget_bind.
  rewrite readPos_retries, forget_prepend; [done|].
  unfold revealAt, update_at in Hb1. rewrite Hat in Hb1.
  injection Hb1 as <-. exact Hbad.
Qed.

(** ** Accepted and rejected lines *)

Lemma extract_int_range (s s' : list ascii) (v : Z) :
  extract_int s = Some (v, s') -> Int.INT_MIN <= v <= Int.INT_MAX.
Proof.
  unfold extract_int. destruct (read_sign (skipws s)) as [neg s1].
  destruct (starts_with_digit s1); [|done].
  destruct (read_digits s1 0) as [n s2].
  destruct (Int.in_range (if neg then - n else n)) eqn:Hr; [|done].
  intros [= <- _]. unfold Int.in_range in Hr.
  apply andb_true_iff in Hr as [?%Z.leb_le ?%Z.leb_le]. done.
Qed.

Lemma extract_two_range (line : string) (r c : Z) :
  extract_two line = Some (r, c) ->
  Int.INT_MIN <= r <= Int.INT_MAX /\ Int.INT_MIN <= c <= Int.INT_MAX.
Proof.
  unfold extract_two.
  destruct (extract_int (list_ascii_of_string line)) as [[r' s]|] eqn:H1; [|done].
  destruct (extract_int s) as [[c' s']|] eqn:H2; [|done].
  intros [= <- <-]. split; by eapply extract_int_range.
Qed.

Lemma valid_one_based (b : Board) (r c : Z) :
  rows b <= Int.INT_MAX -> cols b <= Int.INT_MAX ->
  Int.INT_MIN <= r <= Int.INT_MAX -> Int.INT_MIN <= c <= Int.INT_MAX ->
  (valid b (Int.sub r 1) (Int.sub c 1) = true
   <-> 1 <= r <= rows b /\ 1 <= c <= cols b) /\
  (1 <= r -> Int.sub r 1 = r - 1) /\ (1 <= c -> Int.sub c 1 = c - 1).
Proof.
  intros Hrows Hcols Hr Hc. unfold Int.INT_MIN, Int.INT_MAX in *.
  assert (Hsub : forall z, -2147483648 <= z <= 2147483647 ->
                 (z = -2147483648 /\ Int.sub z 1 = 2147483647) \/
                 (-2147483648 < z /\ Int.sub z 1 = z - 1)).
  { intros z Hz. destruct (Z.eq_dec z (-2147483648)) as [->|Hne].
    - left. done.
    - right. split; [lia|]. apply wrap_small.
      unfold Int.INT_MIN, Int.INT_MAX. lia. }
  rewrite valid_spec.
  destruct (Hsub r Hr) as [[-> ->]|[? ->]], (Hsub c Hc) as [[-> ->]|[? ->]];
    repeat split; lia.
Qed.

(** [readPos] accepts a line exactly when two integers are extracted
    from it and they are 1-based coordinates of a cell. *)
Lemma accept_pos_spec (b : Board) (line : string) (p : Z * Z) :
  rows b <= Int.INT_MAX -> cols b <= Int.INT_MAX ->
  accept_pos b line = Some p
  <-> exists r c : Z,
        extract_two line = Some (r, c) /\
        1 <= r <= rows b /\ 1 <= c <= cols b /\ p = (r - 1, c - 1).
Proof.
  intros Hrows Hcols. unfold accept_pos.
  destruct (extract_two line) as [[r c]|] eqn:He.
  - destruct (extract_two_range _ _ _ He) as [Hr Hc].
    destruct (valid_one_based b r c Hrows Hcols Hr Hc) as (Hv & Hr1 & Hc1).
    destruct (valid b (Int.sub r 1) (Int.sub c 1)) eqn:Hval.
    + apply proj1 in Hv. destruct (Hv eq_refl) as [? ?].
      rewrite Hr1, Hc1 by lia. split.
      * intros [= <-]. by exists r, c.
      * intros (r' & c' & [= <- <-] & _ & _ & ->). done.
    + split; [done|]. intros (r' & c' & [= <- <-] & Hr' & Hc' & _).
      apply proj2 in Hv. discriminate (Hv (conj Hr' Hc')).
  - split; [done|]. by intros (r & c & ? & _).
Qed.

Lemma rejected_spec (b : Board) (line : string) :
  rows b <= Int.INT_MAX -> cols b <= Int.INT_MAX ->
  rejected b line <-> malformed line \/ out_of_range b line.
Proof.
  intros Hrows Hcols. unfold rejected, malformed, out_of_range. split.
  - intros Hrej. destruct (extract_two line) as [[r c]|] eqn:He; [|by left].
    right. exists r, c. split; [done|]. intros [Hr Hc].
    assert (accept_pos b line = Some (r - 1, c - 1)); [|congruence].
    apply accept_pos_spec; [done..|]. by exists r, c.
  - intros Hbad. destruct (accept_pos b line) as [p|] eqn:Ha; [|done].
    apply accept_pos_spec in Ha as (r & c & He & Hr & Hc & _); [|done..].
    destruct Hbad as [Hm|(r' & c' & He' & Hn)]; [congruence|].
    rewrite He in He'. injection He' as <- <-. tauto.
Qed.

Lemma board_wf_dims (b : Board) :
  board_wf b -> rows b <= Int.INT_MAX /\ cols b <= Int.INT_MAX.
Proof. intros (Hr & Hc & Hmax & _). split; nia. Qed.

Lemma example_game_reachable : reachable example_game.
Proof.
  exists (fun _ => O), 2, 2, example_game, [].
  split; [unfold Int.INT_MAX; lia|]. split; [reflexivity|constructor].
Qed.

(** ** What a turn does *)






Lemma plays_to_moves (g0 g : Game) (es : list turn_end) :
  board_wf (board g0) -> settled (cards (board g0)) -> moves g0 = 0 ->
  plays_to g0 es g ->
  Z.of_nat (completed es) <= Int.INT_MAX ->
  moves g = Z.of_nat (completed es).
Proof.
  intros Hwf Hs H0. induction 1 as [|es g inp g' e rest out Hp IH Ht]; [done|].
  unfold completed in *. rewrite List.filter_app, length_app. simpl.
  intros Hmax.
  destruct (plays_to_invariant g0 g es Hwf Hs) as (Hwf' & _ & _);
    [rewrite H0; unfold Int.INT_MIN, Int.INT_MAX; lia|done|].
  apply turn_Returns in Ht; [|done].
  rewrite (turn_rel_moves _ _ _ _ _ _ Ht).
  destruct (compared e); simpl in *.
  - rewrite IH by lia. unfold Int.add. rewrite wrap_small; [lia|].
    unfold Int.INT_MIN. lia.
  - rewrite IH by lia. lia.
Qed.

Lemma moves_after_forget (o : outcome (Game * turn_end)) :
  moves_after (forget o) = moves_after o.
Proof. by destruct o. Qed.

(** The [++] of an [int] on a counter that is itself an [int]. *)
Lemma wrap_add_wrap (a b : Z) : Int.wrap (Int.wrap a + b) = Int.wrap (a + b).
Proof.
  unfold Int.wrap. f_equal.
  replace ((a + 2147483648) mod 4294967296 - 2147483648 + b + 2147483648)
    with ((a + 2147483648) mod 4294967296 + b) by lia.
  rewrite Z.add_mod_idemp_l by lia. f_equal. lia.
Qed.

(** On the 2 x 2 board [B A / A B] the selections [1 1] and [1 2] do not
    match: the turn leaves the board as it was and counts one move,
    whatever the counter. *)
Lemma mismatch_turn (m : Z) :
  exists out : list event,
    turn {| board := board example_game; moves := m |}
         ["1 1"; "1 2"; ""]%string
    = Returns ({| board := board example_game; moves := Int.add m 1 |},
               PairMismatched) [] out.
Proof. eexists. reflexivity. Qed.

Lemma plays_to_mismatches (n : nat) :
  plays_to example_game (repeat PairMismatched n)
           {| board := board example_game;
              moves := Int.wrap (Z.of_nat n) |}.
Proof.
  induction n as [|n IH].
  - apply plays_start.
  - destruct (mismatch_turn (Int.wrap (Z.of_nat n))) as [out Ht].
    unfold Int.add in Ht. rewrite wrap_add_wrap in Ht.
    replace (Z.of_nat n + 1) with (Z.of_nat (S n)) in Ht by lia.
    change (repeat PairMismatched (S n))
      with (PairMismatched :: repeat PairMismatched n).
    rewrite repeat_cons.
    exact (plays_turn _ _ _ _ _ _ _ _ IH Ht).
Qed.

(** After [INT_MAX] turns that got to the comparison the counter is
    [INT_MAX]. *)
Lemma moves_INT_MAX_reachable :
  reachable {| board := board example_game; moves := Int.INT_MAX |}.
Proof.
  pose proof (plays_to_mismatches (Z.to_nat Int.INT_MAX)) as Hp.
  rewrite Z2Nat.id, wrap_small in Hp
    by (unfold Int.INT_MIN, Int.INT_MAX; lia).
  exists (fun _ => O), 2, 2, example_game,
    (repeat PairMismatched (Z.to_nat Int.INT_MAX)).
  split; [unfold Int.INT_MAX; lia|]. split; [reflexivity|exact Hp].
Qed.

(** C5, as stated, fails: in a session of the 2 x 2 game whose counter
    has come to [INT_MAX] (after 2^31 - 1 turns that got to the
    comparison, here mismatches of [1 1] and [1 2]) one more turn that
    gets to the comparison does not add 1 to the counter: the [++] of
    the [int] leaves [INT_MIN]. *)
Lemma moves_overflow_counterexample :
  reachable {| board := board example_game; moves := 2147483647 |} /\
  (exists out : list event,
      turn {| board := board example_game; moves := 2147483647 |}
           ["1 1"; "1 2"; ""]%string
      = Returns ({| board := board example_game; moves := -2147483648 |},
                 PairMismatched) [] out) /\
  compared PairMismatched = true /\
  -2147483648 <> 2147483647 + 1.
Proof.
  split; [exact moves_INT_MAX_reachable|].
  split; [exact (mismatch_turn 2147483647)|].
  split; [reflexivity|lia].
Qed.

(** C5, amended: the counter of a new game is 0. A turn that gets to
    the comparison, matched or not, applies the [++] of an [int] to it:
    it adds one as long as the counter is below [INT_MAX], and takes
    [INT_MAX] to [INT_MIN]; a turn that ends on a first card already
    matched, on the same card selected twice or on a second card already
    matched leaves it as it is; lines that are malformed or out of range
    do not end a turn and leave the counter of the turn's result as it
    is. So after any number of turns, up to [INT_MAX] of which got to
    the comparison, the counter is the number of turns that got to the
    comparison. *)
Theorem moves_counts_compared_turns :
  (forall (draw : nat -> nat) (r c : Z) (g : Game),
      Game_new draw r c = Ok g -> moves g = 0) /\
  (forall (g g' : Game) (e : turn_end) (inp rest : list string)
          (out : list event),
      reachable g ->
      turn g inp = Returns (g', e) rest out ->
      (compared e = true ->
       moves g' = Int.add (moves g) 1 /\
       (moves g < Int.INT_MAX -> moves g' = moves g + 1) /\
       (moves g = Int.INT_MAX -> moves g' = Int.INT_MIN)) /\
      (compared e = false ->
       moves g' = moves g /\
       (e = FirstAlreadyMatched \/ e = SameCardTwice \/
        e = SecondAlreadyMatched))) /\
  (forall (g : Game) (bad inp : list string),
      reachable g ->
      Forall (fun l => malformed l \/ out_of_range (board g) l) bad ->
      moves_after (turn g (bad ++ inp)) = moves_after (turn g inp)) /\
  (forall (draw : nat -> nat) (r c : Z) (g0 g : Game) (es : list turn_end),
      r * c <= Int.INT_MAX ->
      Game_new draw r c = Ok g0 ->
      plays_to g0 es g ->
      Z.of_nat (completed es) <= Int.INT_MAX ->
      moves g = Z.of_nat (completed es)).
Proof.
  split; [|split; [|split]].
  - intros draw r c g. unfold Game_new.
    destruct (Board_new draw r c); [|done]. by intros [= <-].
  - intros g g' e inp rest out Hreach Ht.
    destruct (reachable_invariant g Hreach) as (Hwf & _ & Hm).
    apply turn_Returns in Ht; [|done].
    rewrite (turn_rel_moves _ _ _ _ _ _ Ht).
    destruct e; simpl; split; try done; intros _.
    1-3: split; auto.
    all: split; [done|]; split;
      [intros Hlt; apply wrap_small; unfold Int.INT_MIN, Int.INT_MAX in *; lia
      |by intros ->].
  - intros g bad inp Hreach Hbad.
    destruct (reachable_invariant g Hreach) as (Hwf & _ & _).
    destruct (board_wf_dims _ Hwf) as [Hrows Hcols].
    rewrite <- moves_after_forget, turn_first_retries, moves_after_forget; [done|].
    eapply Forall_impl; [exact Hbad|]. intros l Hl. by apply rejected_spec.
  - intros draw r c g0 g es Hmax Hnew Hp Hcount.
    unfold Game_new in Hnew.
    destruct (Board_new draw r c) as [b|] eqn:Hb; [|done].
    injection Hnew as <-.
    destruct (Board_new_wf _ _ _ _ Hmax Hb) as [Hwf Hs].
    by apply (plays_to_moves {| board := b; moves := 0 |}).
Qed.

Lemma moves_counts_compared_turns_witness :
  reachable example_game /\
  exists (g' : Game) (out : list event),
    turn example_game ["1 1"; "2 2"]%string
    = Returns (g', PairMatched) [] out /\
    moves g' = moves example_game + 1.
Proof.
  split; [exact example_game_reachable|].
  eexists _, _. split; [reflexivity|].
  destruct moves_counts_compared_turns as (_ & Hturn & _).
  destruct (Hturn example_game _ PairMatched ["1 1"; "2 2"]%string [] _
              example_game_reachable eq_refl) as [Hc _].
  destruct (Hc eq_refl) as (_ & Hplus & _). apply Hplus.
  unfold Int.INT_MAX. simpl. lia.
Defined.




(** C7: lines that are malformed or out of range, however many, only
    make [readPos] write its prompt and its message once more for each
    of them; at the first prompt and at the second, the turn comes to
    the same result with them as without them: the same game (every
    card with its value and flags, the counter), the same end of turn,
    the same input left. *)
Theorem rejected_lines_change_nothing (g : Game) (prompt : string)
        (bad inp : list string) :
  reachable g ->
  Forall (fun l => malformed l \/ out_of_range (board g) l) bad ->
  readPos (board g) prompt (bad ++ inp)
  = prepend (retries prompt bad) (readPos (board g) prompt inp) /\
  forget (turn g (bad ++ inp)) = forget (turn g inp) /\
  (forall (l1 : string) (p1 : Z * Z) (cd1 : Card),
      accept_pos (board g) l1 = Some p1 ->
      cards (board g) !! cell (board g) p1 = Some cd1 ->
      matched cd1 = false ->
      forget (turn g (l1 :: bad ++ inp)) = forget (turn g (l1 :: inp))).
Proof.
  intros Hreach Hbad.
  destruct (reachable_invariant g Hreach) as (Hwf & _ & _).
  destruct (board_wf_dims _ Hwf) as [Hrows Hcols].
  assert (Hrej : Forall (rejected (board g)) bad).
  { eapply Forall_impl; [exact Hbad|]. intros l Hl. by apply rejected_spec. }
  split; [by apply readPos_retries|].
  split; [by apply turn_first_retries|].
  intros l1 [r1 c1] cd1 Hacc Hcd1 Hm1.
  apply (turn_second_retries g l1 (r1, c1) cd1); try done.
  rewrite at_valid; [done|done|]. by apply accept_pos_valid in Hacc.
Qed.

Lemma rejected_lines_change_nothing_witness :
  reachable example_game /\
  Forall (fun l => malformed l \/ out_of_range (board example_game) l)
         ["x"; "3 3"; "0 1"; "7"]%string /\
  forget (turn example_game
               (["x"; "3 3"; "0 1"; "7"]%string ++
                ["1 1"; "1 2"; ""]%string))
  = forget (turn example_game ["1 1"; "1 2"; ""]%string).
Proof.
  assert (Hbad : Forall (fun l => malformed l \/
                                  out_of_range (board example_game) l)
                        ["x"; "3 3"; "0 1"; "7"]%string).
  { constructor; [left; reflexivity|].
    constructor; [right; exists 3, 3; split; [reflexivity|simpl; lia]|].
    constructor; [right; exists 0, 1; split; [reflexivity|simpl; lia]|].
    constructor; [left; reflexivity|]. constructor. }
  split; [exact example_game_reachable|]. split; [exact Hbad|].
  apply (rejected_lines_change_nothing example_game first_prompt
           ["x"; "3 3"; "0 1"; "7"]%string ["1 1"; "1 2"; ""]%string
           example_game_reachable Hbad).
Defined.

(** ** Startup *)

Lemma check_dims_valid (r c : Z) :
  invalid_config r c = false -> check_dims (r, c) = ((r, c), []).
Proof. unfold check_dims, invalid_config. by intros ->. Qed.

Lemma check_dims_invalid (r c : Z) :
  invalid_config r c = true ->
  check_dims (r, c) = ((4, 4), [Print invalid_dims_message]).
Proof. unfold check_dims, invalid_config. by intros ->. Qed.

Lemma startup_dims_valid (line : string) :
  invalid_config (fst (fst (startup_dims line)))
                 (snd (fst (startup_dims line))) = false.
Proof.
  unfold startup_dims.
  destruct (parse_dims line) as [[r c] out1].
  destruct (invalid_config r c) eqn:Hv.
  - by rewrite check_dims_invalid.
  - by rewrite check_dims_valid.
Qed.

(** C9, as stated, fails: on an empty line the program takes 4 x 4 and
    prints no diagnostic. *)
Lemma empty_line_counterexample :
  startup_dims "" = ((4, 4), []).
Proof. reflexivity. Qed.

(** C9, amended: an empty line gives a 4 x 4 board and no diagnostic; a
    line from which two integers cannot be read gives 4 x 4 with the
    message "Invalid input. Using default 4x4."; two integers with a
    dimension that is not positive or with an odd product give 4 x 4
    with the message "Invalid board dimensions. Using default 4x4.";
    any other pair is taken as it is. In every case the dimensions pass
    the guard of the constructor, so the invalid-configuration error
    cannot be thrown for a game started from the prompt. *)
Theorem startup_falls_back (line : string) :
  (line = ""%string -> startup_dims line = ((4, 4), [])) /\
  (line <> ""%string -> extract_two line = None ->
   startup_dims line = ((4, 4), [Print invalid_line_message])) /\
  (forall r c : Z,
      line <> ""%string -> extract_two line = Some (r, c) ->
      (r <= 0 \/ c <= 0 \/ Z.odd (r * c) = true) ->
      startup_dims line = ((4, 4), [Print invalid_dims_message])) /\
  (forall r c : Z,
      line <> ""%string -> extract_two line = Some (r, c) ->
      0 < r -> 0 < c -> Z.even (r * c) = true ->
      startup_dims line = ((r, c), [])) /\
  (forall (draw : nat -> nat) (what : string),
      Board_new draw (fst (fst (startup_dims line)))
                (snd (fst (startup_dims line)))
      <> Throw (runtime_error what)).
Proof.
  split; [by intros ->|].
  assert (Hne : line <> ""%string -> String.eqb line "" = false)
    by (intros ?; by apply String.eqb_neq).
  split; [|split; [|split]].
  - intros Hl He. unfold startup_dims, parse_dims.
    by rewrite (Hne Hl), He.
  - intros r c Hl He Hbad. unfold startup_dims, parse_dims.
    rewrite (Hne Hl), He, check_dims_invalid; [done|].
    by apply invalid_config_spec.
  - intros r c Hl He Hr Hc Hev. unfold startup_dims, parse_dims.
    rewrite (Hne Hl), He, check_dims_valid; [done|].
    by apply valid_config_product.
  - intros draw what. unfold Board_new.
    rewrite startup_dims_valid.
    by destruct (reserve_throws _).
Qed.

Lemma startup_falls_back_witness :
  startup_dims "" = ((4, 4), []) /\
  startup_dims "abc" = ((4, 4), [Print invalid_line_message]) /\
  startup_dims "3 3" = ((4, 4), [Print invalid_dims_message]) /\
  startup_dims "2 3" = ((2, 3), []).
Proof.
  split; [|split; [|split]].
  - destruct (startup_falls_back "") as (H & _). apply H. reflexivity.
  - destruct (startup_falls_back "abc") as (_ & H & _).
    apply H; [discriminate|reflexivity].
  - destruct (startup_falls_back "3 3") as (_ & _ & H & _).
    apply (H 3 3); [discriminate|reflexivity|].
    right. right. reflexivity.
  - destruct (startup_falls_back "2 3") as (_ & _ & _ & H & _).
    apply (H 2 3); [discriminate|reflexivity|lia|lia|reflexivity].
Defined.

(** ** Tokens and extraction *)

Lemma isspace_not_digit (ch : ascii) :
  isspace ch = true -> isdigit ch = false.
Proof.
  destruct ch as [[] [] [] [] [] [] [] []]; vm_compute; congruence.
Qed.

Lemma spec_token_split (s tok rest : list ascii) :
  spec_token s = (tok, rest) ->
  s = tok ++ rest /\ starts_with_digit rest = false.
Proof.
  revert tok. induction s as [|ch s IH]; intros tok; simpl.
  - by intros [= <- <-].
  - destruct (isspace ch) eqn:Hsp.
    + intros [= <- <-]. split; [done|]. simpl. by apply isspace_not_digit.
    + destruct (spec_token s) as [tok' rest'].
      intros [= <- <-]. destruct (IH _ eq_refl) as [-> Hd]. done.
Qed.

Lemma read_digits_all (ds rest : list ascii) (acc : Z) :
  forallb isdigit ds = true -> starts_with_digit rest = false ->
  read_digits (ds ++ rest) acc = (fst (read_digits ds acc), rest).
Proof.
  revert acc. induction ds as [|d ds IH]; intros acc Hds Hrest; simpl.
  - destruct rest as [|ch rest]; [done|]. simpl in *. by rewrite Hrest.
  - simpl in Hds. apply andb_true_iff in Hds as [Hd Hds].
    rewrite Hd. by apply IH.
Qed.

Lemma read_sign_app (tok rest : list ascii) (neg : bool) (ds : list ascii) :
  read_sign tok = (neg, ds) -> starts_with_digit ds = true ->
  read_sign (tok ++ rest) = (neg, ds ++ rest).
Proof.
  destruct tok as [|ch tok]; simpl.
  - by intros [= <- <-].
  - destruct (Ascii.eqb ch "-"); [by intros [= <- <-]|].
    destruct (Ascii.eqb ch "+"); by intros [= <- <-].
Qed.

Lemma starts_with_digit_app (ds rest : list ascii) :
  starts_with_digit ds = true -> starts_with_digit (ds ++ rest) = true.
Proof. by destruct ds. Qed.

(** A token that is an integer is extracted as this integer, and the
    stream is left right behind the token. *)
Lemma extract_int_token (s tok rest : list ascii) (v : Z) :
  spec_token (skipws s) = (tok, rest) ->
  spec_token_int tok = Some v ->
  extract_int s = Some (v, rest).
Proof.
  intros [Hs Hrest]%spec_token_split Hv.
  unfold spec_token_int in Hv. unfold extract_int. rewrite Hs.
  destruct (read_sign tok) as [neg ds] eqn:Hsign.
  destruct (starts_with_digit ds) eqn:Hd; [|done].
  destruct (forallb isdigit ds) eqn:Hall; [|done]. simpl in Hv.
  rewrite (read_sign_app _ _ _ _ Hsign Hd), starts_with_digit_app by done.
  rewrite read_digits_all by done.
  destruct (Int.in_range _); [|done]. by injection Hv as <-.
Qed.

Lemma spec_two_ints_extract (line : string) (r c : Z) :
  spec_two_ints line = Some (r, c) -> extract_two line = Some (r, c).
Proof.
  unfold spec_two_ints, extract_two.
  destruct (spec_token (skipws (list_ascii_of_string line)))
    as [t1 rest1] eqn:H1.
  destruct (spec_token (skipws rest1)) as [t2 rest2] eqn:H2.
  destruct (spec_token_int t1) as [r'|] eqn:Hr; [|done].
  destruct (spec_token_int t2) as [c'|] eqn:Hc; [|done].
  intros [= <- <-].
  rewrite (extract_int_token _ _ _ _ H1 Hr).
  by rewrite (extract_int_token _ _ _ _ H2 Hc).
Qed.

(** ** What follows the second integer *)

Lemma skipws_app (s e : list ascii) :
  skipws s <> [] -> skipws (s ++ e) = skipws s ++ e.
Proof.
  induction s as [|ch s IH]; simpl; [done|].
  destruct (isspace ch); [exact IH|done].
Qed.

Lemma read_sign_extra (s e : list ascii) :
  starts_with_digit (snd (read_sign s)) = true ->
  read_sign (s ++ e) = (fst (read_sign s), snd (read_sign s) ++ e).
Proof.
  destruct s as [|ch s]; simpl; [done|].
  destruct (Ascii.eqb ch "-"); [done|]. by destruct (Ascii.eqb ch "+").
Qed.

Lemma read_digits_extra (s e : list ascii) (acc : Z) :
  (snd (read_digits s acc) = [] -> starts_with_digit e = false) ->
  read_digits (s ++ e) acc
  = (fst (read_digits s acc), snd (read_digits s acc) ++ e).
Proof.
  revert acc. induction s as [|ch s IH]; intros acc He; simpl in *.
  - destruct e as [|ch e]; [done|]. simpl in *. by rewrite He.
  - destruct (isdigit ch); [by apply IH|done].
Qed.

Lemma extract_int_extra (s e rest : list ascii) (v : Z) :
  extract_int s = Some (v, rest) ->
  (rest = [] -> starts_with_digit e = false) ->
  extract_int (s ++ e) = Some (v, rest ++ e).
Proof.
  unfold extract_int. intros Hs He.
  destruct (read_sign (skipws s)) as [neg s1] eqn:Hsign.
  destruct (starts_with_digit s1) eqn:Hd; [|done].
  assert (Hne : skipws s <> []).
  { intros Hnil. rewrite Hnil in Hsign. simpl in Hsign.
    injection Hsign as <- <-. done. }
  rewrite skipws_app by done.
  rewrite read_sign_extra by (by rewrite Hsign).
  rewrite Hsign. simpl fst. simpl snd.
  rewrite starts_with_digit_app by done.
  destruct (read_digits s1 0) as [n s2] eqn:Hn.
  destruct (Int.in_range (if neg then - n else n)) eqn:Hr; [|done].
  injection Hs as <- <-.
  rewrite read_digits_extra by (rewrite Hn; done).
  rewrite Hn. simpl. by rewrite Hr.
Qed.

Lemma list_ascii_of_string_app (s1 s2 : string) :
  list_ascii_of_string (s1 +:+ s2)
  = list_ascii_of_string s1 ++ list_ascii_of_string s2.
Proof. induction s1 as [|ch s1 IH]; simpl; [done|]. by rewrite IH. Qed.


(** Whatever follows the two integers, unless it goes on with a digit,
    changes nothing in what is extracted. *)
Lemma extract_two_extra (line extra : string) (r c : Z) :
  extract_two line = Some (r, c) ->
  starts_with_digit (list_ascii_of_string extra) = false ->
  extract_two (line +:+ extra) = Some (r, c).
Proof.
  unfold extract_two. intros Hl He. rewrite list_ascii_of_string_app.
  destruct (extract_int (list_ascii_of_string line)) as [[r' s]|] eqn:H1;
    [|done].
  destruct (extract_int s) as [[c' s']|] eqn:H2; [|done].
  injection Hl as <- <-.
  rewrite (extract_int_extra _ _ _ _ H1).
  - by rewrite (extract_int_extra _ _ _ _ H2).
  - intros ->. discriminate H2.
Qed.

Lemma spec_accept_pos_accepted (b : Board) (line : string) (p : Z * Z) :
  rows b <= Int.INT_MAX -> cols b <= Int.INT_MAX ->
  spec_accept_pos b line = Some p -> accept_pos b line = Some p.
Proof.
  intros Hrows Hcols. unfold spec_accept_pos.
  destruct (spec_two_ints line) as [[r c]|] eqn:Hs; [|done].
  destruct ((1 <=? r) && (r <=? rows b) && (1 <=? c) && (c <=? cols b))
    eqn:Hin; [|done].
  intros [= <-]. apply accept_pos_spec; [done..|].
  exists r, c. split; [by apply spec_two_ints_extract|].
  rewrite !andb_true_iff, !Z.leb_le in Hin. repeat split; lia.
Qed.

(** C10, as stated, fails: on a 2 x 2 board the line [1+2] is accepted
    as the cell (0, 1), yet it is a single token and not two tokens that
    are integers. *)
Lemma single_token_counterexample :
  accept_pos (board example_game) "1+2" = Some (0, 1) /\
  spec_token (skipws (list_ascii_of_string "1+2"))
  = (list_ascii_of_string "1+2", []) /\
  spec_accept_pos (board example_game) "1+2" = None.
Proof. repeat split. Qed.

(** C10, amended: [readPos] accepts a line exactly when two integers
    [r], [c] are extracted from it as [>>] does (each after optional
    white space, as an optional sign and the longest run of digits, the
    number fitting an [int]) and [1 <= r <= rows], [1 <= c <= cols]; it
    then returns [(r-1, c-1)]. Every line whose first two tokens are
    integers in these ranges is accepted with this result, but white
    space between the two integers is not required. What follows the
    second integer, unless it goes on with a digit, is ignored, by
    [readPos] and by the reading of the startup line alike. *)
Theorem coordinate_parsing (b : Board) (line : string) :
  rows b <= Int.INT_MAX -> cols b <= Int.INT_MAX ->
  (forall p : Z * Z,
      accept_pos b line = Some p
      <-> exists r c : Z,
            extract_two line = Some (r, c) /\
            1 <= r <= rows b /\ 1 <= c <= cols b /\ p = (r - 1, c - 1)) /\
  (forall p : Z * Z,
      spec_accept_pos b line = Some p -> accept_pos b line = Some p) /\
  (forall (p : Z * Z) (extra : string),
      accept_pos b line = Some p ->
      starts_with_digit (list_ascii_of_string extra) = false ->
      accept_pos b (line +:+ extra) = Some p) /\
  (forall (r c : Z) (extra : string),
      extract_two line = Some (r, c) ->
      starts_with_digit (list_ascii_of_string extra) = false ->
      parse_dims (line +:+ extra) = ((r, c), [])).
Proof.
  intros Hrows Hcols.
  split; [intros p; by apply accept_pos_spec|].
  split; [intros p; by apply spec_accept_pos_accepted|].
  split.
  - intros p extra Hacc He.
    apply accept_pos_spec in Hacc as (r & c & Hrc & Hr & Hc & ->); [|done..].
    apply accept_pos_spec; [done..|]. exists r, c.
    split; [by apply extract_two_extra|done].
  - intros r c extra Hrc He. unfold parse_dims.
    rewrite (extract_two_extra _ _ _ _ Hrc He).
    destruct (String.eqb (line +:+ extra) "") eqn:Hempty; [|done].
    apply String.eqb_eq in Hempty.
    destruct line; [discriminate Hrc|discriminate Hempty].
Qed.

Lemma coordinate_parsing_witness :
  accept_pos (board example_game) "2 1" = Some (1, 0) /\
  accept_pos (board example_game) (" 2  1" +:+ " and more") = Some (1, 0) /\
  parse_dims ("4 6" +:+ "x") = ((4, 6), []).
Proof.
  assert (Hmax : 2 <= Int.INT_MAX) by (unfold Int.INT_MAX; lia).
  destruct (coordinate_parsing (board example_game) "2 1" Hmax Hmax)
    as (_ & Hspec & _).
  destruct (coordinate_parsing (board example_game) " 2  1" Hmax Hmax)
    as (_ & _ & Hextra & _).
  destruct (coordinate_parsing (board example_game) "4 6" Hmax Hmax)
    as (_ & _ & _ & Hdims).
  split; [|split].
  - apply Hspec. reflexivity.
  - apply Hextra; reflexivity.
  - apply Hdims; reflexivity.
Defined.

(** ** The loop of [play] *)

Lemma readPos_consumes (b : Board) (prompt : string) (inp rest : list string)
      (p : Z * Z) (out : list event) :
  readPos b prompt inp = Returns p rest out ->
  (length rest < length inp)%nat.
Proof.
  intros (bad & line & -> & _)%readPos_Returns.
  rewrite length_app. simpl. lia.
Qed.

(** A turn that returns has read at least one line. *)
Lemma turn_rel_consumes (g g' : Game) (e : turn_end) (inp rest : list string)
      (out : list event) :
  turn_rel g inp g' e rest out -> (length rest < length inp)%nat.
Proof.
  intros Hrel. destruct Hrel as
    [ p1 rest1 out1 cd1 H1 Hcd1 Hm1
    | p1 rest1 out1 cd1 b1 rest2 out2 H1 Hcd1 Hm1 Hb1 H2
    | p1 rest1 out1 cd1 b1 p2 rest2 out2 cd2 H1 Hcd1 Hm1 Hb1 H2 Hne Hcd2 Hm2
    | p1 rest1 out1 cd1 b1 p2 rest2 out2 cd2 b2 H1 Hcd1 Hm1 Hb1 H2 Hne Hcd2 Hm2 Hb2 Hv
    | p1 rest1 out1 cd1 b1 p2 rest2 out2 cd2 b2 H1 Hcd1 Hm1 Hb1 H2 Hne Hcd2 Hm2 Hb2 Hv ];
    apply readPos_consumes in H1; try apply readPos_consumes in H2;
    try lia.
  destruct rest2; simpl in *; lia.
Qed.

(** With more fuel than lines of input the loop never runs out of fuel,
    and on a well-formed board it never leaves the vector: it returns
    with every card matched, or spins in [readPos] at the end of the
    input, or ends in the exception of [display]. *)
Lemma play_loop_total (fuel : nat) (g : Game) (inp : list string) :
  board_wf (board g) -> (length inp < fuel)%nat ->
  wp (play_loop fuel g inp)
     (fun g' _ _ => allMatched (board g') = true).
Proof.
  revert g inp. induction fuel as [|fuel IH]; intros g inp Hwf Hfuel; [lia|].
  simpl. destruct (allMatched (board g)) eqn:Hall; [done|].
  apply wp_bind.
  eapply wp_mono; [|by apply turn_sound].
  intros [g' e] rest out Hrel. simpl in Hrel.
  pose proof (turn_rel_consumes _ _ _ _ _ _ Hrel).
  destruct (turn_rel_wf _ _ _ _ _ _ Hwf Hrel) as (Hwf' & _).
  eapply wp_mono; [|apply IH; [exact Hwf'|lia]].
  by intros g'' rest' out' Hg.
Qed.

(** A line whose [int] product overflows to a negative number passes the
    check of [main] and ends the program with the error of [reserve]. *)
Example startup_overflow :
  main_ (fun _ => O) 1 ["46341 46342"]%string
  = Exits 1
      [Print "Enter board size (rows cols) or press Enter for default 4 4:";
       PrintError "vector::reserve"].
Proof. reflexivity. Qed.

(** A 2 x 2 game played without a mistake takes two moves. *)
Example play_two_by_two :
  exists out : list event,
    play 3 example_game [""; "1 1"; "2 2"; "1 2"; "2 1"]%string
    = Returns {| board := set_cards (board example_game)
                            (map setMatched (cards (board example_game)));
                 moves := 2 |} [] out.
Proof. eexists. reflexivity. Qed.

(** * Further properties of the code *)

(** ** [allMatched] and the board the constructor builds *)

Lemma allMatched_cards_Forall (cs : list Card) :
  allMatched_cards cs = true <-> Forall (fun cd => matched cd = true) cs.
Proof.
  induction cs as [|cd cs IH]; simpl.
  - split; [constructor|done].
  - unfold isMatched. destruct (matched cd) eqn:Hm; simpl.
    + rewrite IH. split; [by constructor|by inversion 1].
    + split; [done|]. inversion 1. congruence.
Qed.

(** X1: [allMatched] is true exactly when every card of the board is
    matched, and false exactly when some card is not; on a board without
    cards it is true. *)
Theorem allMatched_iff_every_card_matched (b : Board) :
  (allMatched b = true <-> Forall (fun cd => matched cd = true) (cards b)) /\
  (allMatched b = false <-> Exists (fun cd => matched cd = false) (cards b)) /\
  (cards b = [] -> allMatched b = true).
Proof.
  unfold allMatched. split; [apply allMatched_cards_Forall|]. split.
  - induction (cards b) as [|cd cs IH]; simpl.
    + split; [done|by inversion 1].
    + unfold isMatched. destruct (matched cd) eqn:Hm; simpl.
      * rewrite IH. split; [by right|]. inversion 1; [congruence|done].
      * split; [by left|done].
  - by intros ->.
Qed.

Lemma allMatched_iff_every_card_matched_witness :
  allMatched (board example_game) = false /\
  allMatched (set_cards (board example_game) []) = true.
Proof.
  destruct (allMatched_iff_every_card_matched (board example_game))
    as (_ & Hfalse & _).
  destruct (allMatched_iff_every_card_matched
              (set_cards (board example_game) [])) as (_ & _ & Hempty).
  split; [|by apply Hempty].
  apply Hfalse. by left.
Defined.

Lemma new_cards_unmatched (deck : list ascii) :
  allMatched_cards (map Card_new deck) = true <-> deck = [].
Proof. destruct deck; simpl; split; done. Qed.

Lemma Board_new_length (draw : nat -> nat) (r c : Z) (b : Board) :
  Board_new draw r c = Ok b ->
  Z.of_nat (length (cards b)) = Int.mul r c /\
  Z.even (Int.mul r c) = true.
Proof.
  intros Hb.
  assert (Hv : invalid_config r c = false).
  { unfold Board_new in Hb. by destruct (invalid_config r c). }
  assert (He : Z.even (Int.mul r c) = true).
  { unfold invalid_config in Hv. rewrite rem2_even in Hv.
    apply orb_false_iff in Hv as [_ Hv]. by apply negb_false_iff in Hv. }
  destruct (Board_new_cards _ _ _ _ Hb) as (_ & _ & Hpos & Hperm & _).
  apply Permutation_length in Hperm.
  rewrite length_map, flat_map_twice_length, makeValues_length in Hperm.
  split; [|done]. rewrite Hperm.
  destruct (proj1 (Z.even_spec _) He) as [k Hk].
  assert (Hq : Int.div (Int.mul r c) 2 = k).
  { unfold Int.div. rewrite Hk, Z.mul_comm. apply Z.quot_mul. lia. }
  rewrite Hq. lia.
Qed.

(** X2: a board the constructor built is already all matched exactly
    when the [int] product [rows*cols] is 0, which takes an overflow
    (65536 x 65536): then it has no card at all. A board whose product
    fits an [int] is never all matched when it is built. *)
Theorem new_board_all_matched_iff_empty (draw : nat -> nat) (r c : Z)
        (b : Board) :
  Board_new draw r c = Ok b ->
  (allMatched b = true <-> Int.mul r c = 0) /\
  (allMatched b = true -> cards b = []) /\
  (r * c <= Int.INT_MAX -> allMatched b = false).
Proof.
  intros Hb.
  destruct (Board_new_length _ _ _ _ Hb) as [Hlen _].
  destruct (Board_new_cards _ _ _ _ Hb) as (_ & _ & _ & _ & Hnew).
  assert (Hall : allMatched b = true <-> cards b = []).
  { unfold allMatched. rewrite allMatched_cards_Forall. split.
    - intros Hm. destruct (cards b) as [|cd cs]; [done|].
      apply Forall_cons in Hm as [Hm _]. apply Forall_cons in Hnew as [[_ Hn] _].
      congruence.
    - intros ->. constructor. }
  split; [|split].
  - rewrite Hall. split.
    + intros Hnil. rewrite Hnil in Hlen. simpl in Hlen. lia.
    + intros H0. rewrite H0 in Hlen. destruct (cards b); [done|simpl in Hlen; lia].
  - apply Hall.
  - intros Hmax. destruct (Board_new_wf _ _ _ _ Hmax Hb) as [(Hr & Hc & _ & Hl) _].
    apply not_true_is_false. intros Ha.
    apply Hall in Ha. rewrite Ha in Hl. simpl in Hl. nia.
Qed.

Lemma new_board_all_matched_iff_empty_witness :
  (exists b, Board_new (fun _ => O) 2 2 = Ok b /\ allMatched b = false) /\
  (exists b, Board_new (fun _ => O) 65536 65536 = Ok b /\ allMatched b = true).
Proof.
  split.
  - eexists. split; [reflexivity|].
    eapply (new_board_all_matched_iff_empty (fun _ => O) 2 2);
      [reflexivity|unfold Int.INT_MAX; lia].
  - eexists. split; [reflexivity|].
    eapply (new_board_all_matched_iff_empty (fun _ => O) 65536 65536);
      reflexivity.
Defined.

(** X3: on every board the constructor built, [getSize] is the number
    of cards in the vector, also when [rows*cols] overflowed; and this
    number is even. *)
Theorem getSize_is_card_count (draw : nat -> nat) (r c : Z) (b : Board) :
  Board_new draw r c = Ok b ->
  getSize b = Z.of_nat (length (cards b)) /\
  Nat.Even (length (cards b)).
Proof.
  intros Hb. destruct (Board_new_length _ _ _ _ Hb) as [Hlen He].
  destruct (Board_new_cards _ _ _ _ Hb) as (Hrows & Hcols & _).
  split.
  - unfold getSize. by rewrite Hrows, Hcols, Hlen.
  - rewrite <- Hlen in He. apply Z.even_spec in He as [k Hk].
    exists (Z.to_nat k). lia.
Qed.

Lemma getSize_is_card_count_witness :
  exists b, Board_new (fun i => i) 2 3 = Ok b /\
            getSize b = Z.of_nat (length (cards b)).
Proof.
  eexists. split; [reflexivity|].
  eapply (getSize_is_card_count (fun i => i) 2 3). reflexivity.
Defined.

(** X4: whatever the size of the board (also beyond the 70 symbols of
    the pool), every value lies in an even number of cells: twice the
    number of times [makeValues] produced it. *)
Theorem every_value_in_pairs (draw : nat -> nat) (r c : Z) (b : Board)
        (v : ascii) :
  Board_new draw r c = Ok b ->
  count_occ ascii_dec (map value (cards b)) v
  = (2 * count_occ ascii_dec (makeValues (Int.div (Int.mul r c) 2)) v)%nat.
Proof.
  intros Hb. destruct (Board_new_cards _ _ _ _ Hb) as (_ & _ & _ & Hperm & _).
  rewrite (proj1 (Permutation_count_occ ascii_dec _ _) Hperm).
  apply count_flat_map_twice.
Qed.

Lemma every_value_in_pairs_witness :
  exists b, Board_new (fun _ => O) 12 12 = Ok b /\
            count_occ ascii_dec (map value (cards b)) "A"%char = 4%nat /\
            count_occ ascii_dec (map value (cards b)) "C"%char = 2%nat.
Proof.
  destruct (Board_new (fun _ => O) 12 12) as [b|e] eqn:Hb;
    [|vm_compute in Hb; discriminate].
  exists b. split; [done|].
  rewrite !(every_value_in_pairs _ _ _ _ _ Hb). split; reflexivity.
Defined.

(** ** Addressing the cells *)

Lemma cell_onto (b : Board) (i : nat) :
  board_wf b -> (i < length (cards b))%nat ->
  exists r c : Z, valid b r c = true /\ cell b (r, c) = i.
Proof.
  intros (Hr & Hc & _ & Hlen) Hi.
  exists (Z.of_nat i / cols b), (Z.of_nat i mod cols b).
  pose proof (Z.div_mod (Z.of_nat i) (cols b) ltac:(lia)) as Hdm.
  pose proof (Z.mod_pos_bound (Z.of_nat i) (cols b) Hc) as Hmod.
  assert (Hdiv : 0 <= Z.of_nat i / cols b) by (apply Z.div_pos; lia).
  split.
  - apply valid_spec. split; [|lia]. split; [done|].
    apply Z.div_lt_upper_bound; [done|]. lia.
  - unfold cell. simpl. lia.
Qed.

(** X5: on a well-formed board [at(r, c)] is the card at position
    [r*cols + c] of the vector, and the coordinates [valid] accepts and
    the positions of the vector correspond one to one: every valid
    coordinate has a card, two different valid coordinates have
    different positions, and every position is the one of a valid
    coordinate. *)
Theorem valid_cells_are_the_cards (b : Board) :
  board_wf b ->
  (forall r c : Z,
      valid b r c = true ->
      at_ b r c = cards b !! Z.to_nat (r * cols b + c) /\
      exists cd, at_ b r c = Some cd) /\
  (forall r1 c1 r2 c2 : Z,
      valid b r1 c1 = true -> valid b r2 c2 = true ->
      Z.to_nat (r1 * cols b + c1) = Z.to_nat (r2 * cols b + c2) ->
      r1 = r2 /\ c1 = c2) /\
  (forall i : nat,
      (i < length (cards b))%nat ->
      exists r c : Z,
        valid b r c = true /\ Z.to_nat (r * cols b + c) = i).
Proof.
  intros Hwf. split; [|split].
  - intros r c Hv. rewrite at_valid by done. split; [done|].
    by apply cell_is_Some.
  - intros r1 c1 r2 c2 Hv1 Hv2 Heq.
    assert (Hp : (r1, c1) = (r2, c2)) by (by apply (cell_inj b)).
    by injection Hp.
  - intros i Hi. by apply cell_onto.
Qed.

Lemma valid_cells_are_the_cards_witness :
  (exists cd, at_ (board example_game) 1 0 = Some cd) /\
  (exists r c : Z,
      valid (board example_game) r c = true /\
      Z.to_nat (r * cols (board example_game) + c) = 3%nat).
Proof.
  assert (Hwf : board_wf (board example_game)).
  { unfold board_wf, Int.INT_MAX. simpl. lia. }
  destruct (valid_cells_are_the_cards (board example_game) Hwf)
    as (Hat & _ & Honto).
  split.
  - destruct (Hat 1 0 eq_refl) as [_ Hcd]. exact Hcd.
  - apply Honto. simpl. lia.
Defined.

(** ** [revealAt], [hideAt], [matchAt] *)

Lemma update_at_lookup (f : Card -> Card) (b b' : Board) (r c : Z) :
  board_wf b -> valid b r c = true ->
  update_at f b r c = Some b' ->
  board_wf b' /\ rows b' = rows b /\ cols b' = cols b /\
  cards b' = alter f (cell b (r, c)) (cards b).
Proof.
  intros Hwf Hv. rewrite update_at_valid by done. intros [= <-].
  split; [|done]. apply set_cards_wf; [done|apply length_alter].
Qed.

(** X6: on a well-formed board an update of a valid cell ([revealAt],
    [hideAt], [matchAt]) keeps the dimensions and the number of cards,
    applies the operation to the card of that cell and leaves the card
    of every other valid cell as it is. *)
Theorem update_changes_one_cell (f : Card -> Card) (b : Board) (r c : Z) :
  board_wf b -> valid b r c = true ->
  exists b' : Board,
    update_at f b r c = Some b' /\
    board_wf b' /\
    rows b' = rows b /\ cols b' = cols b /\
    length (cards b') = length (cards b) /\
    at_ b' r c = f <$> at_ b r c /\
    (forall r' c' : Z,
        valid b r' c' = true -> (r', c') <> (r, c) ->
        at_ b' r' c' = at_ b r' c').
Proof.
  intros Hwf Hv. eexists. split; [by apply update_at_valid|].
  assert (Hwf' : board_wf (set_cards b (alter f (cell b (r, c)) (cards b)))).
  { apply set_cards_wf; [done|apply length_alter]. }
  split; [done|]. split; [done|]. split; [done|].
  split; [apply length_alter|]. split.
  - rewrite !at_valid by done. simpl.
    change (cell _ (r, c)) with (cell b (r, c)).
    apply list_lookup_alter_eq.
  - intros r' c' Hv' Hne. rewrite !at_valid by done. simpl.
    change (cell _ (r', c')) with (cell b (r', c')).
    apply list_lookup_alter_ne. intros Heq.
    apply (cell_inj b) in Heq; [congruence|done..].
Qed.

Lemma update_changes_one_cell_witness :
  exists b' : Board,
    revealAt (board example_game) 0 1 = Some b' /\
    at_ b' 0 1 = Some {| value := "A"; revealed := true; matched := false |} /\
    at_ b' 1 1 = at_ (board example_game) 1 1.
Proof.
  assert (Hwf : board_wf (board example_game)).
  { unfold board_wf, Int.INT_MAX. simpl. lia. }
  destruct (update_changes_one_cell reveal (board example_game) 0 1 Hwf eq_refl)
    as (b' & Hb' & _ & _ & _ & _ & Hat & Hother).
  exists b'. split; [exact Hb'|]. split.
  - rewrite Hat. reflexivity.
  - apply Hother; [reflexivity|discriminate].
Defined.

(** X7: updates of two different valid cells can be done in either
    order: the board that results is the same. *)
Theorem updates_of_different_cells_commute (f g : Card -> Card) (b : Board)
        (p q : Z * Z) :
  board_wf b ->
  valid b (fst p) (snd p) = true -> valid b (fst q) (snd q) = true ->
  p <> q ->
  update_then f g b p q = update_then g f b q p /\
  exists b' : Board, update_then f g b p q = Some b'.
Proof.
  intros Hwf Hp Hq Hne. destruct p as [r1 c1], q as [r2 c2]. simpl in *.
  unfold update_then. simpl.
  rewrite (update_at_valid f b r1 c1), (update_at_valid g b r2 c2) by done.
  rewrite !update_at_valid;
    try done; try (apply set_cards_wf; [done|apply length_alter]).
  simpl. change (cell (set_cards b _) ?x) with (cell b x).
  split; [|by eexists]. unfold set_cards. simpl.
  rewrite (list_alter_alter_ne g f); [done|]. intros Heq.
  apply (cell_inj b) in Heq; [congruence|done..].
Qed.

Lemma updates_of_different_cells_commute_witness :
  update_then reveal setMatched (board example_game) (0, 0) (1, 1)
  = update_then setMatched reveal (board example_game) (1, 1) (0, 0).
Proof.
  assert (Hwf : board_wf (board example_game)).
  { unfold board_wf, Int.INT_MAX. simpl. lia. }
  apply (updates_of_different_cells_commute reveal setMatched
           (board example_game) (0, 0) (1, 1) Hwf eq_refl eq_refl).
  discriminate.
Defined.

(** ** What [display] shows *)

Lemma glyph_face_up (cd : Card) :
  glyph cd = if face_up cd then value cd else "*"%char.
Proof. unfold glyph, face_up. by destruct (isMatched cd), (isRevealed cd). Qed.

Lemma render_shape (b : Board) :
  length (render b) = Z.to_nat (rows b) /\
  Forall (fun row => length row = Z.to_nat (cols b)) (render b).
Proof.
  unfold render. split; [by rewrite length_map, length_seq|].
  apply Forall_forall. intros row Hrow.
  apply list_elem_of_In, in_map_iff in Hrow as (r & <- & _).
  by rewrite length_map, length_seq.
Qed.

Lemma nth_cell (b : Board) (r c : nat) (d : Card) :
  board_wf b ->
  (r < Z.to_nat (rows b))%nat -> (c < Z.to_nat (cols b))%nat ->
  cards b !! cell b (Z.of_nat r, Z.of_nat c)
  = Some (nth (cell b (Z.of_nat r, Z.of_nat c)) (cards b) d).
Proof.
  intros Hwf Hr Hc.
  assert (Hv : valid b (Z.of_nat r) (Z.of_nat c) = true)
    by (apply valid_spec; lia).
  destruct (cell_is_Some b _ _ Hwf Hv) as [cd Hcd].
  by rewrite Hcd, (nth_lookup_Some _ _ _ _ Hcd).
Qed.

(** The border [string(cols * 4, '-')]: with fewer than 2^29 columns the
    product is the length of the border; from 2^29 up to 2^30 columns
    the [int] product is negative and the constructor throws. *)
Lemma border_small (b : Board) :
  0 <= cols b < 536870912 -> border_throws b = false.
Proof.
  intros Hc. unfold border_throws, Int.mul.
  rewrite wrap_small by (unfold Int.INT_MIN, Int.INT_MAX; lia).
  apply Z.ltb_ge. lia.
Qed.

Lemma border_wraps (b : Board) :
  536870912 <= cols b < 1073741824 -> border_throws b = true.
Proof.
  intros Hc. unfold border_throws, Int.mul, Int.wrap.
  replace (cols b * 4 + 2147483648)
    with (cols b * 4 - 2147483648 + 1 * 4294967296) by lia.
  rewrite Z_mod_plus_full, Z.mod_small by lia.
  apply Z.ltb_lt. lia.
Qed.

(** X8: on a well-formed board [display] either throws
    [std::length_error] before anything of the board is drawn, when the
    [int] product [cols * 4] of the border is negative (so with 2^29 up
    to 2^30 columns), or draws [rows] rows of [cols] cells (so with
    fewer than 2^29 columns); a cell shows the value of its card when
    the card is matched or revealed and [*] otherwise. So two boards of
    the same dimensions whose cards have the same flags, and the same
    values where a card is matched or revealed, are drawn alike: the
    value of a card that lies face down does not show. *)
Theorem display_hides_face_down_cards (b : Board) (inp : list string) :
  board_wf b ->
  display b inp
  = (if Int.mul (cols b) 4 <? 0
     then Throws (length_error "basic_string::_M_create") []
     else Returns tt inp [Display (render b)]) /\
  (cols b < 536870912 ->
   display b inp = Returns tt inp [Display (render b)]) /\
  (536870912 <= cols b < 1073741824 ->
   display b inp = Throws (length_error "basic_string::_M_create") []) /\
  length (render b) = Z.to_nat (rows b) /\
  Forall (fun row => length row = Z.to_nat (cols b)) (render b) /\
  (forall (p : Z * Z) (cd : Card),
      valid b (fst p) (snd p) = true ->
      cards b !! cell b p = Some cd ->
      shown_at (render b) p
      = Some (if face_up cd then value cd else "*"%char)) /\
  (forall b' : Board,
      board_wf b' -> rows b' = rows b -> cols b' = cols b ->
      (forall (i : nat) (cd cd' : Card),
          cards b !! i = Some cd -> cards b' !! i = Some cd' ->
          face_up cd' = face_up cd /\
          (face_up cd = true -> value cd' = value cd)) ->
      render b' = render b).
Proof.
  intros Hwf.
  assert (Hd : display b inp
               = if Int.mul (cols b) 4 <? 0
                 then Throws (length_error "basic_string::_M_create") []
                 else Returns tt inp [Display (render b)]).
  { unfold display, border_throws. destruct (Int.mul (cols b) 4 <? 0); [done|].
    by rewrite display_rows_render. }
  split; [exact Hd|]. split.
  { intros Hc. rewrite Hd. fold (border_throws b).
    rewrite border_small; [done|]. destruct Hwf as (_ & ? & _). lia. }
  split.
  { intros Hc. rewrite Hd. fold (border_throws b).
    by rewrite border_wraps. }
  destruct (render_shape b) as [Hl Hrow].
  split; [done|]. split; [done|]. split.
  - intros p cd Hv Hcd. rewrite render_at, Hcd by done. simpl.
    by rewrite glyph_face_up.
  - intros b' Hwf' Hrows Hcols Hsame. unfold render.
    rewrite Hrows, Hcols.
    apply map_ext_in. intros r Hr%in_seq.
    apply map_ext_in. intros c Hc%in_seq.
    pose proof (nth_cell b r c (Card_new " ") Hwf ltac:(lia) ltac:(lia))
      as Hcd.
    pose proof (nth_cell b' r c (Card_new " ") Hwf' ltac:(lia) ltac:(lia))
      as Hcd'.
    assert (Hcell : cell b' (Z.of_nat r, Z.of_nat c)
                    = cell b (Z.of_nat r, Z.of_nat c))
      by (unfold cell; by rewrite Hcols).
    rewrite Hcell in Hcd' |- *.
    destruct (Hsame _ _ _ Hcd Hcd') as [Hup Hval].
    rewrite !glyph_face_up, Hup.
    destruct (face_up (nth _ (cards b) _)) eqn:Hf; [|reflexivity].
    apply Hval. reflexivity.
Qed.

Lemma display_hides_face_down_cards_witness :
  display (board example_game) []
  = Returns tt [] [Display (render (board example_game))] /\
  render (set_cards (board example_game)
            (map Card_new (list_ascii_of_string "ABBA")))
  = render (board example_game) /\
  shown_at (render (board example_game)) (0, 1) = Some "*"%char.
Proof.
  assert (Hwf : board_wf (board example_game)).
  { unfold board_wf, Int.INT_MAX. simpl. lia. }
  destruct (display_hides_face_down_cards (board example_game) [] Hwf)
    as (_ & Hsmall & _ & _ & _ & Hshown & Hsame).
  split; [apply Hsmall; simpl; lia|].
  split.
  - apply Hsame; [|reflexivity|reflexivity|].
    + unfold board_wf, Int.INT_MAX. simpl. lia.
    + intros [|[|[|[|i]]]] cd cd' Hcd Hcd'; simpl in *;
        try discriminate; injection Hcd as <-; injection Hcd' as <-;
        (split; [reflexivity|discriminate]).
  - apply (Hshown (0, 1) (Card_new "A")); reflexivity.
Defined.

(** ** What a session keeps *)

Lemma map_value_alter (f : Card -> Card) (i : nat) (cs : list Card) :
  (forall cd, value (f cd) = value cd) ->
  map value (alter f i cs) = map value cs.
Proof.
  intros Hf. revert i. induction cs as [|cd cs IH]; intros [|i]; simpl;
    rewrite ?Hf; try done.
  f_equal. apply IH.
Qed.

Lemma hide_value (cd : Card) : value (hide cd) = value cd.
Proof. destruct cd as [v rv m]. by destruct m. Qed.

Lemma turn_rel_values (g g' : Game) (e : turn_end) (inp rest : list string)
      (out : list event) :
  turn_rel g inp g' e rest out ->
  map value (cards (board g')) = map value (cards (board g)) /\
  rows (board g') = rows (board g) /\ cols (board g') = cols (board g).
Proof.
  intros Hrel. destruct Hrel as
    [ p1 rest1 out1 cd1 H1 Hcd1 Hm1
    | p1 rest1 out1 cd1 b1 rest2 out2 H1 Hcd1 Hm1 Hb1 H2
    | p1 rest1 out1 cd1 b1 p2 rest2 out2 cd2 H1 Hcd1 Hm1 Hb1 H2 Hne Hcd2 Hm2
    | p1 rest1 out1 cd1 b1 p2 rest2 out2 cd2 b2 H1 Hcd1 Hm1 Hb1 H2 Hne Hcd2 Hm2 Hb2 Hv
    | p1 rest1 out1 cd1 b1 p2 rest2 out2 cd2 b2 H1 Hcd1 Hm1 Hb1 H2 Hne Hcd2 Hm2 Hb2 Hv ];
    try subst b2; try subst b1; simpl; (split; [|done]); try done;
    rewrite !map_value_alter; auto using reveal_value, hide_value.
Qed.

Lemma plays_to_values (g0 g : Game) (es : list turn_end) :
  board_wf (board g0) -> settled (cards (board g0)) ->
  Int.INT_MIN <= moves g0 <= Int.INT_MAX ->
  plays_to g0 es g ->
  map value (cards (board g)) = map value (cards (board g0)) /\
  rows (board g) = rows (board g0) /\ cols (board g) = cols (board g0).
Proof.
  intros Hwf Hs Hm. induction 1 as [|es g inp g' e rest out Hp IH Ht]; [done|].
  destruct IH as (Hv & Hr & Hc).
  destruct (plays_to_invariant g0 g es Hwf Hs Hm Hp) as (Hwf' & _ & _).
  apply turn_Returns in Ht; [|done].
  destruct (turn_rel_values _ _ _ _ _ _ Ht) as (-> & -> & ->). done.
Qed.

(** X9: a turn never changes the value of a card, the dimensions of the
    board or the number of cards; so through a whole session the values
    lie where the constructor laid them. *)
Theorem values_and_shape_never_change :
  (forall (g g' : Game) (e : turn_end) (inp rest : list string)
          (out : list event),
      reachable g ->
      turn g inp = Returns (g', e) rest out ->
      map value (cards (board g')) = map value (cards (board g)) /\
      rows (board g') = rows (board g) /\
      cols (board g') = cols (board g) /\
      length (cards (board g')) = length (cards (board g))) /\
  (forall (draw : nat -> nat) (r c : Z) (g0 g : Game) (es : list turn_end),
      r * c <= Int.INT_MAX ->
      Game_new draw r c = Ok g0 ->
      plays_to g0 es g ->
      map value (cards (board g)) = map value (cards (board g0)) /\
      rows (board g) = r /\ cols (board g) = c /\
      Z.of_nat (length (cards (board g))) = r * c).
Proof.
  split.
  - intros g g' e inp rest out Hreach Ht.
    destruct (reachable_invariant g Hreach) as (Hwf & _ & _).
    apply turn_Returns in Ht; [|done].
    destruct (turn_rel_values _ _ _ _ _ _ Ht) as (Hv & Hr & Hc).
    repeat split; try done.
    apply (f_equal (@length ascii)) in Hv. by rewrite !length_map in Hv.
  - intros draw r c g0 g es Hmax Hnew Hp.
    unfold Game_new in Hnew.
    destruct (Board_new draw r c) as [b|] eqn:Hb; [|done].
    injection Hnew as <-.
    destruct (Board_new_wf _ _ _ _ Hmax Hb) as [Hwf Hs].
    destruct (Board_new_cards _ _ _ _ Hb) as (Hrows & Hcols & _).
    destruct (plays_to_values {| board := b; moves := 0 |} g es Hwf Hs)
      as (Hv & Hr & Hc); [simpl; unfold Int.INT_MIN, Int.INT_MAX; lia|done|].
    simpl in *. rewrite Hr, Hc, Hrows, Hcols. repeat split; try done.
    apply (f_equal (@length ascii)) in Hv. rewrite !length_map in Hv.
    rewrite Hv. destruct Hwf as (_ & _ & _ & Hl). by rewrite Hl, Hrows, Hcols.
Qed.

Lemma values_and_shape_never_change_witness :
  exists (g' : Game) (out : list event),
    turn example_game ["1 1"; "2 2"]%string
    = Returns (g', PairMatched) [] out /\
    map value (cards (board g')) = map value (cards (board example_game)).
Proof.
  eexists _, _. split; [reflexivity|].
  destruct values_and_shape_never_change as [Hturn _].
  eapply (Hturn example_game _ PairMatched ["1 1"; "2 2"]%string [] _
            example_game_reachable eq_refl).
Defined.

(** ** The glyph of a hidden card and the pool *)

Lemma star_not_in_first_69 (n : nat) :
  (n <= 69)%nat -> "*"%char ∉ take n pool.
Proof.
  intros Hn Hin. apply elem_of_take in Hin as (i & Hi & Hlt).
  assert (Hno : "*"%char ∉ take 69 pool)
    by (apply (bool_decide_unpack _); vm_compute; exact I).
  apply Hno, elem_of_take. exists i. split; [done|lia].
Qed.

Lemma in_flat_map_twice (vs : list ascii) (v : ascii) :
  In v (flat_map twice vs) -> v ∈ vs.
Proof.
  intros (w & Hw & Hv)%in_flat_map. apply list_elem_of_In.
  destruct Hv as [<-|[<-|[]]]; done.
Qed.

Lemma glyph_star (cd : Card) : value cd = "*"%char -> glyph cd = "*"%char.
Proof. rewrite glyph_face_up. intros ->. by destruct (face_up cd). Qed.

Lemma glyph_not_star (cd : Card) :
  value cd <> "*"%char -> (glyph cd = "*"%char <-> face_up cd = false).
Proof.
  rewrite glyph_face_up. intros Hv. destruct (face_up cd); split; congruence.
Qed.

Lemma star_is_value_70 (n : nat) :
  (70 <= n)%nat ->
  In "*"%char (map (fun k => pool_at (k mod 70)) (seq 0 n)).
Proof.
  intros Hn. apply in_map_iff. exists 69%nat. split; [reflexivity|].
  apply in_seq. lia.
Qed.

(** X10: [display] draws a face-down card as [*], and [*] is also the
    70th symbol of the pool. On a board of at most 138 cells no card has
    this value, so through the whole session a [*] on the screen means a
    face-down card and nothing else. On a board of 140 cells or more
    some card has the value [*]: it is drawn as [*] whether it lies face
    up or face down. *)
Theorem star_on_screen (draw : nat -> nat) (r c : Z) (g0 g : Game)
        (es : list turn_end) :
  Game_new draw r c = Ok g0 ->
  plays_to g0 es g ->
  (r * c <= 138 ->
   forall cd : Card,
     cd ∈ cards (board g) ->
     value cd <> "*"%char /\
     (glyph cd = "*"%char <-> face_up cd = false)) /\
  (140 <= r * c <= Int.INT_MAX ->
   exists (i : nat) (cd : Card),
     cards (board g) !! i = Some cd /\
     value cd = "*"%char /\
     glyph cd = "*"%char /\ glyph (setMatched cd) = "*"%char).
Proof.
  intros Hnew Hp. unfold Game_new in Hnew.
  destruct (Board_new draw r c) as [b|] eqn:Hb; [|done].
  injection Hnew as <-.
  assert (Hfit : r * c <= Int.INT_MAX ->
                 map value (cards (board g)) = map value (cards b) /\
                 0 < r /\ 0 < c /\ Int.mul r c = r * c /\
                 Int.div (r * c) 2 = r * c / 2).
  { intros Hmax. destruct (Board_new_wf _ _ _ _ Hmax Hb) as [Hwf Hs].
    destruct (plays_to_values {| board := b; moves := 0 |} g es Hwf Hs)
      as (Hv & _ & _); [simpl; unfold Int.INT_MIN, Int.INT_MAX; lia|done|].
    destruct (Board_new_cards _ _ _ _ Hb) as (Hrows & Hcols & _).
    destruct Hwf as (Hr & Hc & _ & _). rewrite Hrows in Hr. rewrite Hcols in Hc.
    split; [done|]. split; [done|]. split; [done|]. split.
    - apply wrap_small. unfold Int.INT_MIN, Int.INT_MAX in *. nia.
    - apply Z.quot_div_nonneg; nia. }
  destruct (Board_new_cards _ _ _ _ Hb) as (_ & _ & _ & Hperm & _).
  split.
  - intros Hle cd Hcd.
    destruct Hfit as (Hv & Hr & Hc & Hmul & Hdiv);
      [unfold Int.INT_MAX; lia|].
    assert (Hne : value cd <> "*"%char).
    { intros Hstar.
      assert (Hin : In (value cd) (map value (cards (board g))))
        by (apply in_map; by apply list_elem_of_In).
      rewrite Hv in Hin. apply (Permutation_in _ Hperm) in Hin.
      rewrite Hmul, Hdiv, makeValues_small in Hin
        by (apply Z.div_le_upper_bound; lia).
      apply in_flat_map_twice in Hin. rewrite Hstar in Hin.
      apply (star_not_in_first_69 (Z.to_nat (r * c / 2))); [|done].
      assert (r * c / 2 <= 69) by (apply Z.div_le_upper_bound; lia). lia. }
    split; [done|]. by apply glyph_not_star.
  - intros [Hge Hmax].
    destruct Hfit as (Hv & Hr & Hc & Hmul & Hdiv); [done|].
    assert (Hin : In "*"%char (map value (cards (board g)))).
    { rewrite Hv. apply (Permutation_in _ (Permutation_sym Hperm)).
      rewrite Hmul, Hdiv, makeValues_spec.
      apply in_flat_map. exists "*"%char. split; [|by left].
      apply star_is_value_70.
      assert (70 <= r * c / 2) by (apply Z.div_le_lower_bound; lia). lia. }
    apply in_map_iff in Hin as (cd & Hval & Hcd).
    apply list_elem_of_In, list_elem_of_lookup in Hcd as [i Hi].
    exists i, cd. split; [done|]. split; [done|].
    split; by apply glyph_star.
Qed.

Lemma star_on_screen_witness :
  (forall cd : Card,
      cd ∈ cards (board example_game) ->
      value cd <> "*"%char /\
      (glyph cd = "*"%char <-> face_up cd = false)) /\
  exists (g0 : Game) (i : nat) (cd : Card),
    Game_new (fun _ => O) 10 14 = Ok g0 /\
    cards (board g0) !! i = Some cd /\ value cd = "*"%char.
Proof.
  split.
  - apply (star_on_screen (fun _ => O) 2 2 example_game example_game []);
      [reflexivity|constructor|lia].
  - destruct (Game_new (fun _ => O) 10 14) as [g0|e] eqn:Hg;
      [|vm_compute in Hg; discriminate].
    destruct (star_on_screen (fun _ => O) 10 14 g0 g0 [] Hg
                ltac:(constructor)) as [_ Hbig].
    destruct Hbig as (i & cd & Hi & Hv & _);
      [unfold Int.INT_MAX; lia|].
    by exists g0, i, cd.
Defined.

(** ** What a turn keeps *)

Lemma settled_unmatched (cs : list Card) (i : nat) (cd : Card) :
  settled cs -> cs !! i = Some cd -> matched cd = false ->
  hide (reveal cd) = cd.
Proof.
  intros Hs Hcd Hm. pose proof (Forall_lookup_1 _ _ _ _ Hs Hcd) as Hr.
  destruct cd as [v rv m]. simpl in *. by subst.
Qed.

Lemma mismatch_restores (cs : list Card) (i1 i2 : nat) (cd1 cd2 : Card) :
  settled cs -> i1 <> i2 ->
  cs !! i1 = Some cd1 -> cs !! i2 = Some cd2 ->
  matched cd1 = false -> matched cd2 = false ->
  alter hide i2 (alter hide i1 (alter reveal i2 (alter reveal i1 cs))) = cs.
Proof.
  intros Hs Hne H1 H2 Hm1 Hm2.
  destruct (two_cells_lookup hide _ _ _ _ _ Hne H1 H2) as (E1 & E2 & E3).
  cbv zeta in *. apply list_eq. intros i.
  destruct (decide (i = i1)) as [->|N1].
  { by rewrite E1, H1, (settled_unmatched cs i1). }
  destruct (decide (i = i2)) as [->|N2].
  { by rewrite E2, H2, (settled_unmatched cs i2). }
  by apply E3.
Qed.

(** X11: a turn that does not end with a matched pair leaves the board
    exactly as it was when the turn began (after a mismatch only the
    counter has changed; when the first card selected was already
    matched nothing has changed at all), and whatever the end of the
    turn, a card that was matched stays as it is. *)
Theorem only_a_matched_pair_changes_the_board (g g' : Game) (e : turn_end)
        (inp rest : list string) (out : list event) :
  reachable g ->
  turn g inp = Returns (g', e) rest out ->
  (e <> PairMatched -> board g' = board g) /\
  (e = FirstAlreadyMatched -> g' = g) /\
  (forall (i : nat) (cd : Card),
      cards (board g) !! i = Some cd -> matched cd = true ->
      cards (board g') !! i = Some cd).
Proof.
  intros Hreach Ht.
  destruct (reachable_invariant g Hreach) as (Hwf & Hs & _).
  apply turn_Returns in Ht; [|done].
  destruct Ht as
    [ p1 rest1 out1 cd1 H1 Hcd1 Hm1
    | p1 rest1 out1 cd1 b1 rest2 out2 H1 Hcd1 Hm1 Hb1 H2
    | p1 rest1 out1 cd1 b1 p2 rest2 out2 cd2 H1 Hcd1 Hm1 Hb1 H2 Hne Hcd2 Hm2
    | p1 rest1 out1 cd1 b1 p2 rest2 out2 cd2 b2 H1 Hcd1 Hm1 Hb1 H2 Hne Hcd2 Hm2 Hb2 Hv
    | p1 rest1 out1 cd1 b1 p2 rest2 out2 cd2 b2 H1 Hcd1 Hm1 Hb1 H2 Hne Hcd2 Hm2 Hb2 Hv ];
    [done|..].
  all: try subst b2; subst b1; rewrite readPos_set_cards in H2.
  all: pose proof (readPos_valid _ _ _ _ _ _ H1) as Hv1.
  all: pose proof (readPos_valid _ _ _ _ _ _ H2) as Hv2.
  all: pose proof (Forall_lookup_1 _ _ _ _ Hs Hcd1) as Hs1; simpl in Hs1.
  1,2: simpl; rewrite (hide_reveal_back _ _ cd1), set_cards_same by done;
    by repeat split.
  all: assert (Hcell : cell (board g) p1 <> cell (board g) p2)
      by (intros Heq; apply (cell_inj (board g)) in Heq; [congruence|done..]).
  - split; [done|]. split; [done|]. intros i cd Hi Hm. simpl.
    destruct (two_cells_lookup setMatched _ _ _ _ _ Hcell Hcd1 Hcd2)
      as (_ & _ & E3). cbv zeta in E3.
    rewrite E3; [done|intros ->; congruence|intros ->; congruence].
  - simpl. rewrite (mismatch_restores _ _ _ cd1 cd2), set_cards_same by done.
    by repeat split.
Qed.

Lemma only_a_matched_pair_changes_the_board_witness :
  exists (g' : Game) (out : list event),
    turn example_game ["1 1"; "1 2"; ""]%string
    = Returns (g', PairMismatched) [] out /\
    board g' = board example_game.
Proof.
  eexists _, _. split; [reflexivity|].
  eapply (only_a_matched_pair_changes_the_board example_game _
            PairMismatched ["1 1"; "1 2"; ""]%string [] _
            example_game_reachable eq_refl).
  discriminate.
Defined.

(** ** Counting the matched cards *)

Lemma matched_count_alter_same (f : Card -> Card) (i : nat) (cs : list Card) :
  (forall cd, matched (f cd) = matched cd) ->
  matched_count (alter f i cs) = matched_count cs.
Proof.
  intros Hf. unfold matched_count. revert i.
  induction cs as [|cd cs IH]; intros [|i]; simpl; try done.
  - unfold isMatched. rewrite Hf. by destruct (matched cd).
  - specialize (IH i). destruct (isMatched cd); simpl; [f_equal|]; exact IH.
Qed.

Lemma matched_count_alter_set (i : nat) (cs : list Card) (cd : Card) :
  cs !! i = Some cd -> matched cd = false ->
  matched_count (alter setMatched i cs) = S (matched_count cs).
Proof.
  unfold matched_count. revert i.
  induction cs as [|cd' cs IH]; intros [|i] Hcd Hm; simpl in *; try done.
  - injection Hcd as ->. unfold isMatched. simpl. by rewrite Hm.
  - specialize (IH i Hcd Hm). destruct (isMatched cd'); simpl; [f_equal|]; exact IH.
Qed.

Lemma matched_count_le (cs : list Card) :
  (matched_count cs <= length cs)%nat.
Proof. apply List.filter_length_le. Qed.

Lemma allMatched_count (cs : list Card) :
  allMatched_cards cs = true <-> matched_count cs = length cs.
Proof.
  unfold matched_count. induction cs as [|cd cs IH]; simpl; [done|].
  pose proof (matched_count_le cs) as Hle. unfold matched_count in Hle.
  destruct (isMatched cd); simpl.
  - rewrite IH. lia.
  - split; [done|lia].
Qed.

Lemma matched_count_new (deck : list ascii) :
  matched_count (map Card_new deck) = O.
Proof. unfold matched_count. by induction deck. Qed.

Lemma turn_rel_matched_count (g g' : Game) (e : turn_end)
      (inp rest : list string) (out : list event) :
  board_wf (board g) ->
  turn_rel g inp g' e rest out ->
  matched_count (cards (board g'))
  = (matched_count (cards (board g)) + if is_pair_matched e then 2 else 0)%nat.
Proof.
  intros Hwf Hrel. destruct Hrel as
    [ p1 rest1 out1 cd1 H1 Hcd1 Hm1
    | p1 rest1 out1 cd1 b1 rest2 out2 H1 Hcd1 Hm1 Hb1 H2
    | p1 rest1 out1 cd1 b1 p2 rest2 out2 cd2 H1 Hcd1 Hm1 Hb1 H2 Hne Hcd2 Hm2
    | p1 rest1 out1 cd1 b1 p2 rest2 out2 cd2 b2 H1 Hcd1 Hm1 Hb1 H2 Hne Hcd2 Hm2 Hb2 Hv
    | p1 rest1 out1 cd1 b1 p2 rest2 out2 cd2 b2 H1 Hcd1 Hm1 Hb1 H2 Hne Hcd2 Hm2 Hb2 Hv ];
    try subst b2; try subst b1; simpl.
  - lia.
  - rewrite !matched_count_alter_same;
      auto using hide_matched, reveal_matched.
  - rewrite !matched_count_alter_same;
      auto using hide_matched, reveal_matched.
  - rewrite readPos_set_cards in H2.
    pose proof (readPos_valid _ _ _ _ _ _ H1) as Hv1.
    pose proof (readPos_valid _ _ _ _ _ _ H2) as Hv2.
    assert (Hcell : cell (board g) p1 <> cell (board g) p2)
      by (intros Heq; apply (cell_inj (board g)) in Heq; [congruence|done..]).
    rewrite (matched_count_alter_set _ _ (reveal cd2)).
    + rewrite (matched_count_alter_set _ _ (reveal cd1)).
      * rewrite !matched_count_alter_same by apply reveal_matched. lia.
      * rewrite list_lookup_alter_ne, list_lookup_alter_eq, Hcd1 by done.
        done.
      * by rewrite reveal_matched.
    + rewrite list_lookup_alter_ne by done.
      rewrite list_lookup_alter_eq, list_lookup_alter_ne, Hcd2 by done.
      done.
    + by rewrite reveal_matched.
  - rewrite !matched_count_alter_same;
      auto using hide_matched, reveal_matched.
Qed.

Lemma plays_to_matched_count (g0 g : Game) (es : list turn_end) :
  board_wf (board g0) -> settled (cards (board g0)) ->
  Int.INT_MIN <= moves g0 <= Int.INT_MAX ->
  plays_to g0 es g ->
  matched_count (cards (board g))
  = (matched_count (cards (board g0)) + 2 * pairs_matched es)%nat.
Proof.
  intros Hwf Hs Hm. induction 1 as [|es g inp g' e rest out Hp IH Ht].
  - unfold pairs_matched. simpl. lia.
  - destruct (plays_to_invariant g0 g es Hwf Hs Hm Hp) as (Hwf' & _ & _).
    apply turn_Returns in Ht; [|done].
    rewrite (turn_rel_matched_count _ _ _ _ _ _ Hwf' Ht), IH.
    unfold pairs_matched. rewrite List.filter_app, length_app. simpl.
    destruct (is_pair_matched e); simpl; lia.
Qed.

(** X12: in a session the number of matched cards is twice the number
    of turns that ended with a matched pair; there are never more such
    turns than pairs on the board, and the board is all matched (the
    loop of [play] ends) exactly when there have been [rows*cols/2] of
    them. *)
Theorem matched_cards_count_the_pairs (draw : nat -> nat) (r c : Z)
        (g0 g : Game) (es : list turn_end) :
  r * c <= Int.INT_MAX ->
  Game_new draw r c = Ok g0 ->
  plays_to g0 es g ->
  matched_count (cards (board g)) = (2 * pairs_matched es)%nat /\
  2 * Z.of_nat (pairs_matched es) <= r * c /\
  (allMatched (board g) = true
   <-> 2 * Z.of_nat (pairs_matched es) = r * c).
Proof.
  intros Hmax Hnew Hp. unfold Game_new in Hnew.
  destruct (Board_new draw r c) as [b|] eqn:Hb; [|done].
  injection Hnew as <-.
  destruct (Board_new_wf _ _ _ _ Hmax Hb) as [Hwf Hs].
  assert (Hm : Int.INT_MIN <= moves {| board := b; moves := 0 |}
               <= Int.INT_MAX)
    by (simpl; unfold Int.INT_MIN, Int.INT_MAX; lia).
  pose proof (plays_to_matched_count {| board := b; moves := 0 |} g es
                Hwf Hs Hm Hp) as Hcount.
  destruct (plays_to_values {| board := b; moves := 0 |} g es Hwf Hs Hm Hp)
    as (Hv & _ & _).
  apply (f_equal (@length ascii)) in Hv. rewrite !length_map in Hv.
  simpl in Hcount, Hv.
  assert (H0 : matched_count (cards b) = O).
  { rewrite Board_new_Ok in Hb.
    - injection Hb as <-. simpl. apply matched_count_new.
    - unfold Board_new in Hb. by destruct (invalid_config r c).
    - by destruct (Board_new_cards _ _ _ _ Hb) as (_ & _ & ? & _). }
  rewrite H0 in Hcount. simpl in Hcount.
  destruct Hwf as (_ & _ & _ & Hlen).
  destruct (Board_new_cards _ _ _ _ Hb) as (Hrows & Hcols & _).
  rewrite Hrows, Hcols in Hlen.
  pose proof (matched_count_le (cards (board g))) as Hle.
  split; [lia|]. split; [lia|].
  unfold allMatched. rewrite allMatched_count. lia.
Qed.

Lemma matched_cards_count_the_pairs_witness :
  exists (g : Game) (out : list event),
    turn example_game ["1 1"; "2 2"]%string
    = Returns (g, PairMatched) [] out /\
    matched_count (cards (board g)) = 2%nat /\
    allMatched (board g) = false.
Proof.
  eexists _, _. split; [reflexivity|].
  eassert (Hp : plays_to example_game ([] ++ [PairMatched]) _).
  { eapply (plays_turn example_game [] example_game
              ["1 1"; "2 2"]%string _ PairMatched [] _);
      [constructor|reflexivity]. }
  destruct (matched_cards_count_the_pairs (fun _ => O) 2 2 example_game _ _
              ltac:(unfold Int.INT_MAX; lia) eq_refl Hp)
    as (Hcount & _ & Hall).
  split; [exact Hcount|].
  apply not_true_is_false. intros Ha. apply Hall in Ha. discriminate Ha.
Defined.

(** ** [readPos] from the first line to the last *)

(** X13: [readPos] returns the position of the first line of the input
    that passes its test, having written the prompt and the message once
    for every line before it; when no line of the input passes, it never
    returns: after the last line it goes on prompting for ever. *)
Theorem readPos_first_accepted_line (b : Board) (prompt : string)
        (bad : list string) :
  Forall (rejected b) bad ->
  readPos b prompt bad
  = Spins (retries prompt bad ++ [Print prompt; GetLine None]) /\
  (forall (line : string) (p : Z * Z) (rest : list string),
      accept_pos b line = Some p ->
      readPos b prompt (bad ++ line :: rest)
      = Returns p rest
          (retries prompt bad ++ [Print prompt; GetLine (Some line)])).
Proof.
  intros Hbad. split.
  - rewrite <- (app_nil_r bad) at 1. by rewrite readPos_retries.
  - intros line p rest Hacc. rewrite readPos_retries by done.
    simpl. by rewrite Hacc.
Qed.

Lemma readPos_first_accepted_line_witness :
  readPos (board example_game) first_prompt ["0 0"; "x"]%string
  = Spins (retries first_prompt ["0 0"; "x"]%string
           ++ [Print first_prompt; GetLine None]) /\
  readPos (board example_game) first_prompt
          (["0 0"; "x"]%string ++ "2 1"%string :: ["rest"%string])
  = Returns (1, 0) ["rest"%string]
      (retries first_prompt ["0 0"; "x"]%string
       ++ [Print first_prompt; GetLine (Some "2 1"%string)]).
Proof.
  assert (Hbad : Forall (rejected (board example_game)) ["0 0"; "x"]%string).
  { constructor; [reflexivity|]. constructor; [reflexivity|constructor]. }
  destruct (readPos_first_accepted_line (board example_game) first_prompt
              _ Hbad) as [Hspin Hret].
  split; [exact Hspin|]. apply Hret. reflexivity.
Defined.

(** ** Blank lines *)

Lemma skipws_blank (s : list ascii) :
  Forall (fun ch => isspace ch = true) s -> skipws s = [].
Proof. induction 1 as [|ch s Hch Hs IH]; simpl; [done|]. by rewrite Hch. Qed.

(** X14: a line of white space only, the empty line included, holds no
    integer: [readPos] turns it down on every board, and at startup such
    a line, unless it is empty, gives the 4 x 4 board with the message
    "Invalid input. Using default 4x4." (the empty line gives it without
    a message). *)
Theorem blank_lines_are_rejected (line : string) :
  blank line ->
  extract_two line = None /\
  (forall b : Board, accept_pos b line = None) /\
  (line <> ""%string ->
   startup_dims line = ((4, 4), [Print invalid_line_message])).
Proof.
  intros Hblank.
  assert (He : extract_two line = None).
  { unfold extract_two, extract_int. by rewrite skipws_blank. }
  split; [done|]. split.
  - intros b. unfold accept_pos. by rewrite He.
  - intros Hne. unfold startup_dims, parse_dims.
    apply String.eqb_neq in Hne. by rewrite Hne, He.
Qed.

Lemma blank_lines_are_rejected_witness :
  accept_pos (board example_game) "" = None /\
  startup_dims "   " = ((4, 4), [Print invalid_line_message]).
Proof.
  split.
  - apply (blank_lines_are_rejected ""). constructor.
  - apply (blank_lines_are_rejected "   "); [|discriminate].
    repeat constructor.
Defined.

(** ** [play] from its first line to its last *)

Lemma plays_to_cons (g g1 g' : Game) (e : turn_end) (es : list turn_end)
      (inp rest : list string) (out : list event) :
  turn g inp = Returns (g1, e) rest out ->
  plays_to g1 es g' -> plays_to g (e :: es) g'.
Proof.
  intros Ht. induction 1 as [|es g' inp' g'' e' rest' out' Hp IH Ht'].
  - apply (plays_turn g [] g inp g1 e rest out); [constructor|done].
  - apply (plays_turn g (e :: es) g' inp' g'' e' rest' out'); done.
Qed.

Lemma play_loop_post (fuel : nat) (g : Game) (inp : list string) :
  board_wf (board g) -> (length inp < fuel)%nat ->
  wp (play_loop fuel g inp)
     (fun g' _ _ =>
        allMatched (board g') = true /\ board_wf (board g') /\
        exists es, plays_to g es g').
Proof.
  revert g inp. induction fuel as [|fuel IH]; intros g inp Hwf Hfuel; [lia|].
  simpl. destruct (allMatched (board g)) eqn:Hall.
  { simpl. split; [done|]. split; [done|]. exists []. constructor. }
  apply wp_bind.
  pose proof (turn_sound g inp Hwf) as Hsound.
  destruct (turn g inp) as [[g1 e] rest out| | | |] eqn:Ht; simpl in *;
    try done.
  pose proof (turn_rel_consumes _ _ _ _ _ _ Hsound).
  destruct (turn_rel_wf _ _ _ _ _ _ Hwf Hsound) as (Hwf1 & _).
  eapply wp_mono; [|apply (IH g1 rest Hwf1); lia].
  intros g' rest' out' (Ha & Hwf' & es & Hp).
  split; [done|]. split; [done|]. exists (e :: es).
  by eapply plays_to_cons.
Qed.

Lemma play_post (fuel : nat) (g : Game) (inp : list string) :
  board_wf (board g) -> (length inp < fuel)%nat ->
  wp (play fuel g inp)
     (fun g' _ out =>
        allMatched (board g') = true /\
        (exists es, plays_to g es g') /\
        exists before,
          out = before ++
                [Display (render (board g'));
                 Print "CONGRATULATIONS! All pairs matched.";
                 PrintTotal (moves g')]).
Proof.
  intros Hwf Hfuel. unfold play.
  do 4 apply wp_bind, wp_emit.
  apply wp_bind, wp_getline.
  apply wp_bind.
  eapply wp_mono;
    [|apply (play_loop_post fuel g (tail inp) Hwf); destruct inp; simpl in *; lia].
  intros g' rest out (Ha & Hwf' & Hes).
  apply wp_bind, wp_display; [done|].
  do 2 apply wp_bind, wp_emit. apply wp_ret.
  split; [done|]. split; [done|].
  eexists (_ :: _ :: _ :: _ :: _ :: out). simpl.
  rewrite ?app_nil_r. reflexivity.
Qed.

(** X15: started on a game of a session with more fuel than lines of
    input, [play] never runs out of fuel and never reads or writes
    outside the vector of cards. It returns only with every card
    matched, the game it returns being reached from the first by a
    sequence of turns, and the last things it writes are the board, the
    congratulations and the total of moves. (Otherwise it waits for
    input for ever, or ends in the exception of [display].) *)
Theorem play_ends_only_when_won (fuel : nat) (g : Game) (inp : list string) :
  reachable g -> (length inp < fuel)%nat ->
  play fuel g inp <> OutOfFuel /\
  (forall out, play fuel g inp <> Undefined out) /\
  (forall (g' : Game) (rest : list string) (out : list event),
      play fuel g inp = Returns g' rest out ->
      allMatched (board g') = true /\
      (exists es, plays_to g es g') /\
      exists before,
        out = before ++
              [Display (render (board g'));
               Print "CONGRATULATIONS! All pairs matched.";
               PrintTotal (moves g')]).
Proof.
  intros Hreach Hfuel.
  destruct (reachable_invariant g Hreach) as (Hwf & _ & _).
  pose proof (play_post fuel g inp Hwf Hfuel) as Hpost.
  destruct (play fuel g inp) as [g' rest out| | |out|]; simpl in Hpost;
    try done.
  split; [done|]. split; [done|]. by intros g'' rest' out' [= <- <- <-].
Qed.

Lemma play_ends_only_when_won_witness :
  exists (g' : Game) (out : list event),
    play 6 example_game [""; "1 1"; "2 2"; "1 2"; "2 1"]%string
    = Returns g' [] out /\
    allMatched (board g') = true.
Proof.
  lazymatch eval vm_compute in
      (play 6 example_game [""; "1 1"; "2 2"; "1 2"; "2 1"]%string) with
  | Returns ?g' ?rest ?out =>
      assert (Hplay : play 6 example_game
                           [""; "1 1"; "2 2"; "1 2"; "2 1"]%string
                      = Returns g' rest out) by (vm_compute; reflexivity);
      exists g', out
  end.
  split; [exact Hplay|].
  assert (Hfuel : (length [""; "1 1"; "2 2"; "1 2"; "2 1"]%string < 6)%nat)
    by (simpl; lia).
  exact (proj1 (proj2 (proj2 (play_ends_only_when_won 6 example_game
                                [""; "1 1"; "2 2"; "1 2"; "2 1"]%string
                                example_game_reachable Hfuel))
                      _ _ _ Hplay)).
Defined.

(** ** The exit code of [main] *)




















(** ** White space before the integers *)

Lemma skipws_blank_app (ws s : list ascii) :
  Forall (fun ch => isspace ch = true) ws -> skipws (ws ++ s) = skipws s.
Proof. induction 1 as [|ch ws Hch Hws IH]; simpl; [done|]. by rewrite Hch. Qed.

(** X17: white space in front of a line changes nothing in what is read
    from it: the same two integers, the same selection on every board,
    and, at startup, the same dimensions and diagnostics when the line is
    not empty. *)
Theorem leading_white_space_is_skipped (ws line : string) :
  blank ws ->
  extract_two (ws +:+ line) = extract_two line /\
  (forall b : Board, accept_pos b (ws +:+ line) = accept_pos b line) /\
  (line <> ""%string -> startup_dims (ws +:+ line) = startup_dims line).
Proof.
  intros Hws.
  assert (He : extract_two (ws +:+ line) = extract_two line).
  { unfold extract_two, extract_int.
    by rewrite list_ascii_of_string_app, skipws_blank_app. }
  split; [done|]. split.
  - intros b. unfold accept_pos. by rewrite He.
  - intros Hne. unfold startup_dims, parse_dims. rewrite He.
    assert (Hne' : ws +:+ line <> ""%string).
    { destruct ws; simpl; [done|discriminate]. }
    apply String.eqb_neq in Hne, Hne'. by rewrite Hne, Hne'.
Qed.

Lemma leading_white_space_is_skipped_witness :
  accept_pos (board example_game) ("   " +:+ "2 1") = Some (1, 0).
Proof.
  destruct (leading_white_space_is_skipped "   " "2 1") as (_ & Hacc & _).
  { repeat constructor. }
  rewrite Hacc. reflexivity.
Defined.

(** ** The lines a turn reads *)

Lemma lines_read_app (o1 o2 : list event) :
  lines_read (o1 ++ o2) = lines_read o1 ++ lines_read o2.
Proof. apply flat_map_app. Qed.

Lemma lines_read_retries (prompt : string) (bad : list string) :
  lines_read (retries prompt bad) = bad.
Proof.
  induction bad as [|l bad IH]; [done|].
  unfold retries, lines_read in *. simpl. by rewrite IH.
Qed.

Lemma readPos_lines (b : Board) (prompt : string) (inp rest : list string)
      (p : Z * Z) (out : list event) :
  readPos b prompt inp = Returns p rest out ->
  inp = lines_read out ++ rest /\ lines_read out <> [].
Proof.
  intros (bad & line & -> & _ & _ & ->)%readPos_Returns.
  rewrite lines_read_app, lines_read_retries. simpl.
  rewrite <- app_assoc. split; [done|]. by destruct bad.
Qed.

(** X18: a turn that returns has read at least one line, and the lines
    it has read, in the order in which its events report them, followed
    by the input it leaves, are the input it was given: it reads from
    the front of the input and nothing else. *)
Theorem turn_reads_from_the_front (g g' : Game) (e : turn_end)
        (inp rest : list string) (out : list event) :
  reachable g ->
  turn g inp = Returns (g', e) rest out ->
  inp = lines_read out ++ rest /\ lines_read out <> [].
Proof.
  intros Hreach Ht.
  destruct (reachable_invariant g Hreach) as (Hwf & _ & _).
  apply turn_Returns in Ht; [|done].
  destruct Ht as
    [ p1 rest1 out1 cd1 H1 Hcd1 Hm1
    | p1 rest1 out1 cd1 b1 rest2 out2 H1 Hcd1 Hm1 Hb1 H2
    | p1 rest1 out1 cd1 b1 p2 rest2 out2 cd2 H1 Hcd1 Hm1 Hb1 H2 Hne Hcd2 Hm2
    | p1 rest1 out1 cd1 b1 p2 rest2 out2 cd2 b2 H1 Hcd1 Hm1 Hb1 H2 Hne Hcd2 Hm2 Hb2 Hv
    | p1 rest1 out1 cd1 b1 p2 rest2 out2 cd2 b2 H1 Hcd1 Hm1 Hb1 H2 Hne Hcd2 Hm2 Hb2 Hv ];
    apply readPos_lines in H1 as [-> Hn1];
    try (apply readPos_lines in H2 as [-> Hn2]);
    rewrite !lines_read_app; simpl; rewrite ?app_nil_r, <- ?app_assoc.
  1-4: split; [done|]; by destruct (lines_read out1).
  split; [|by destruct (lines_read out1)].
  do 2 f_equal. by destruct rest2.
Qed.

Lemma turn_reads_from_the_front_witness :
  exists (g' : Game) (out : list event),
    turn example_game ["x"; "1 1"; "9 9"; "1 2"; ""; "left"]%string
    = Returns (g', PairMismatched) ["left"%string] out /\
    lines_read out = ["x"; "1 1"; "9 9"; "1 2"; ""]%string.
Proof.
  eexists _, _. split; [reflexivity|].
  destruct (turn_reads_from_the_front example_game _ PairMismatched
              ["x"; "1 1"; "9 9"; "1 2"; ""; "left"]%string
              ["left"%string] _ example_game_reachable eq_refl) as [Heq _].
  apply (app_inv_tail ["left"%string]). symmetry. exact Heq.
Defined.

(** ** Between two turns *)

(** X19: between two turns of a session a card is revealed exactly when
    it is matched; so the board drawn at the head of a turn shows the
    values of the matched cards and [*] everywhere else. *)
Theorem between_turns_only_matched_cards_show (g : Game) :
  reachable g ->
  (forall cd : Card,
      cd ∈ cards (board g) -> revealed cd = matched cd) /\
  (forall (p : Z * Z) (cd : Card),
      valid (board g) (fst p) (snd p) = true ->
      cards (board g) !! cell (board g) p = Some cd ->
      shown_at (render (board g)) p
      = Some (if matched cd then value cd else "*"%char)).
Proof.
  intros Hreach.
  destruct (reachable_invariant g Hreach) as (Hwf & Hs & _).
  split.
  - intros cd Hcd. by apply (proj1 (Forall_forall _ _) Hs).
  - intros p cd Hv Hcd. rewrite render_at, Hcd by done. simpl.
    pose proof (Forall_lookup_1 _ _ _ _ Hs Hcd) as Hr. simpl in Hr.
    unfold glyph, isMatched, isRevealed. rewrite Hr.
    by destruct (matched cd).
Qed.

Lemma between_turns_only_matched_cards_show_witness :
  exists (g : Game) (out : list event),
    turn example_game ["1 1"; "2 2"]%string
    = Returns (g, PairMatched) [] out /\
    shown_at (render (board g)) (0, 0) = Some "B"%char /\
    shown_at (render (board g)) (0, 1) = Some "*"%char.
Proof.
  eexists _, _. split; [reflexivity|].
  eassert (Hreach : reachable _).
  { exists (fun _ => O), 2, 2, example_game, ([] ++ [PairMatched]).
    split; [unfold Int.INT_MAX; lia|]. split; [reflexivity|].
    eapply (plays_turn example_game [] example_game
              ["1 1"; "2 2"]%string _ PairMatched [] _);
      [constructor|reflexivity]. }
  destruct (between_turns_only_matched_cards_show _ Hreach) as [_ Hshown].
  split.
  - apply (Hshown (0, 0) (setMatched (Card_new "B"))); reflexivity.
  - apply (Hshown (0, 1) (Card_new "A")); reflexivity.
Defined.

(** ** The total of moves of a game that is won *)

Lemma completed_split (es : list turn_end) :
  completed es = (pairs_matched es + pairs_mismatched es)%nat.
Proof.
  unfold completed, pairs_matched, pairs_mismatched.
  induction es as [|e es IH]; [done|]. destruct e; simpl; lia.
Qed.

(** X20: when a session has matched every card, the counter (as long as
    the number of compared turns fits an [int]) is the number of pairs
    plus the number of mismatches: it is at least [rows*cols/2], and it
    is [rows*cols/2] exactly when no turn ended with a mismatch. *)
Theorem moves_of_a_won_game (draw : nat -> nat) (r c : Z) (g0 g : Game)
        (es : list turn_end) :
  r * c <= Int.INT_MAX ->
  Game_new draw r c = Ok g0 ->
  plays_to g0 es g ->
  Z.of_nat (completed es) <= Int.INT_MAX ->
  allMatched (board g) = true ->
  moves g = r * c / 2 + Z.of_nat (pairs_mismatched es) /\
  r * c / 2 <= moves g /\
  (moves g = r * c / 2 <-> pairs_mismatched es = O).
Proof.
  intros Hmax Hnew Hp Hfit Hall.
  assert (Hmoves : moves g = Z.of_nat (completed es)).
  { unfold Game_new in Hnew.
    destruct (Board_new draw r c) as [b|] eqn:Hb; [|done].
    injection Hnew as <-.
    destruct (Board_new_wf _ _ _ _ Hmax Hb) as [Hwf Hs].
    by apply (plays_to_moves {| board := b; moves := 0 |}). }
  assert (Hpairs : 2 * Z.of_nat (pairs_matched es) = r * c).
  { unfold Game_new in Hnew.
    destruct (Board_new draw r c) as [b|] eqn:Hb; [|done].
    injection Hnew as <-.
    destruct (Board_new_wf _ _ _ _ Hmax Hb) as [Hwf Hs].
    assert (Hm : Int.INT_MIN <= moves {| board := b; moves := 0 |}
                 <= Int.INT_MAX)
      by (simpl; unfold Int.INT_MIN, Int.INT_MAX; lia).
    pose proof (plays_to_matched_count {| board := b; moves := 0 |} g es
                  Hwf Hs Hm Hp) as Hcount.
    destruct (plays_to_values {| board := b; moves := 0 |} g es Hwf Hs Hm Hp)
      as (Hv & _ & _).
    apply (f_equal (@length ascii)) in Hv. rewrite !length_map in Hv.
    simpl in Hcount, Hv.
    assert (H0 : matched_count (cards b) = O).
    { rewrite Board_new_Ok in Hb.
      - injection Hb as <-. simpl. apply matched_count_new.
      - unfold Board_new in Hb. by destruct (invalid_config r c).
      - by destruct (Board_new_cards _ _ _ _ Hb) as (_ & _ & ? & _). }
    destruct Hwf as (_ & _ & _ & Hlen).
    destruct (Board_new_cards _ _ _ _ Hb) as (Hrows & Hcols & _).
    rewrite Hrows, Hcols in Hlen.
    unfold allMatched in Hall. apply allMatched_count in Hall. lia. }
  assert (Hhalf : r * c / 2 = Z.of_nat (pairs_matched es)).
  { rewrite <- Hpairs, Z.mul_comm, Z.div_mul; lia. }
  rewrite Hmoves, completed_split, Hhalf. lia.
Qed.

Lemma moves_of_a_won_game_witness :
  exists (g1 g2 g3 : Game) (o1 o2 o3 : list event),
    turn example_game ["1 1"; "1 2"; ""]%string
    = Returns (g1, PairMismatched) [] o1 /\
    turn g1 ["1 1"; "2 2"]%string = Returns (g2, PairMatched) [] o2 /\
    turn g2 ["1 2"; "2 1"]%string = Returns (g3, PairMatched) [] o3 /\
    allMatched (board g3) = true /\
    moves g3 = 2 * 2 / 2 + 1.
Proof.
  lazymatch eval vm_compute in
      (turn example_game ["1 1"; "1 2"; ""]%string) with
  | Returns (?g1, _) _ ?o1 =>
      lazymatch eval vm_compute in (turn g1 ["1 1"; "2 2"]%string) with
      | Returns (?g2, _) _ ?o2 =>
          lazymatch eval vm_compute in (turn g2 ["1 2"; "2 1"]%string) with
          | Returns (?g3, _) _ ?o3 =>
              assert (H1 : turn example_game ["1 1"; "1 2"; ""]%string
                           = Returns (g1, PairMismatched) [] o1)
                by (vm_compute; reflexivity);
              assert (H2 : turn g1 ["1 1"; "2 2"]%string
                           = Returns (g2, PairMatched) [] o2)
                by (vm_compute; reflexivity);
              assert (H3 : turn g2 ["1 2"; "2 1"]%string
                           = Returns (g3, PairMatched) [] o3)
                by (vm_compute; reflexivity);
              assert (Hall : allMatched (board g3) = true)
                by (vm_compute; reflexivity);
              exists g1, g2, g3, o1, o2, o3
          end
      end
  end.
  split; [exact H1|]. split; [exact H2|]. split; [exact H3|].
  split; [exact Hall|].
  assert (Hmax : 2 * 2 <= Int.INT_MAX) by (unfold Int.INT_MAX; lia).
  assert (Hnew : Game_new (fun _ => O) 2 2 = Ok example_game)
    by reflexivity.
  pose proof (plays_turn _ _ _ _ _ _ _ _
                (plays_turn _ _ _ _ _ _ _ _
                   (plays_turn _ _ _ _ _ _ _ _
                      (plays_start example_game) H1) H2) H3) as Hp.
  assert (Hfit : Z.of_nat
                   (completed
                      ((([] ++ [PairMismatched]) ++ [PairMatched])
                       ++ [PairMatched])) <= Int.INT_MAX)
    by (unfold Int.INT_MAX, completed; simpl; lia).
  exact (proj1 (moves_of_a_won_game (fun _ => O) 2 2 example_game _ _
                  Hmax Hnew Hp Hfit Hall)).
Defined.
